(** * apollo-container: the dependency-injection container of
      [src/lib/Container.js], embedded in Rocq.

    The container keeps three [Map]s (bindings, instances, aliases) and
    resolves the parameters of constructors and functions by name, reading
    the names off the callable's source text with regular expressions.

    - JavaScript strings are [string]s (code units below 256).
    - The three [Map]s are [gmap string _]; the [parameters] object is a
      map of own properties together with its prototype, since the source
      tests it with [in].
    - The regular expressions of the source are terms of [Regex], run by a
      backtracking matcher that follows the ECMAScript rules for the
      constructs the source uses.
    - Objects have an identity: an address on a heap that only grows.
    - User code (the functions and constructors handed to the container)
      is a function of its arguments and of what happened before; it may
      throw, a constructor may return an object of its own instead of the
      new one, and it does not call the container itself.
    - [get], [construct] and [invoke] call each other without bound (a
      dependency cycle never returns: an engine ends it with a
      [RangeError] when its stack is full), so they take fuel; [OutOfFuel]
      stands for a computation that does not return. *)

From Stdlib Require Import Ascii String List Arith ZArith Lia Bool.
From stdpp Require Import base option list strings gmap fin_maps.
Import ListNotations.
Local Open Scope string_scope.
Local Open Scope list_scope.

(** ** Regular expressions *)

Module Rx.

(** The flags of a [RegExp] that change how a pattern matches ([g] chooses
    between the replace-first and replace-all functions below). *)
Record Flags := { multiline : bool; dotAll : bool }.

Definition flags_none : Flags := {| multiline := false; dotAll := false |}.
Definition flags_m : Flags := {| multiline := true; dotAll := false |}.
Definition flags_ms : Flags := {| multiline := true; dotAll := true |}.

(** The constructs that occur in the patterns of [Container.js]. The
    quantifiers [*?] and [*] are only ever applied to [.]. *)
Inductive Regex : Type :=
| REmpty                           (* the empty pattern *)
| RChar (a : ascii)                (* a literal character *)
| RDot                             (* .   *)
| RSpace                           (* \s  *)
| RSeq (r1 r2 : Regex)             (* r1r2 *)
| RAlt (r1 r2 : Regex)             (* r1|r2 *)
| ROpt (r : Regex)                 (* (?:r)? , greedy *)
| RLazyDots                        (* .*? *)
| RGreedyDots                      (* .*  *)
| RGroup (n : nat) (r : Regex)     (* the n-th capturing group (r) *)
| RBol                             (* ^ *)
| REol                             (* $ *)
| RLook (r : Regex).               (* (?=r) *)

(** A position in the input: the character just before it ([None] at the
    start of the input) and the rest of the input. *)
Definition Pos : Type := option ascii * list ascii.
Definition Caps : Type := list (nat * list ascii).

Definition code (a : ascii) : nat := nat_of_ascii a.

(** LineTerminator: LF and CR (U+2028 and U+2029 are above 255). *)
Definition is_line_terminator (a : ascii) : bool :=
  Nat.eqb (code a) 10 || Nat.eqb (code a) 13.

(** [\s]: TAB, LF, VT, FF, CR, SPACE and NBSP. *)
Definition is_space (a : ascii) : bool :=
  Nat.eqb (code a) 9 || Nat.eqb (code a) 10 || Nat.eqb (code a) 11
  || Nat.eqb (code a) 12 || Nat.eqb (code a) 13 || Nat.eqb (code a) 32
  || Nat.eqb (code a) 160.

Definition dot_matches (fl : Flags) (a : ascii) : bool :=
  dotAll fl || negb (is_line_terminator a).

Definition at_bol (fl : Flags) (p : Pos) : bool :=
  match fst p with
  | None => true
  | Some a => multiline fl && is_line_terminator a
  end.

Definition at_eol (fl : Flags) (p : Pos) : bool :=
  match snd p with
  | [] => true
  | a :: _ => multiline fl && is_line_terminator a
  end.

(** The characters consumed between two positions of the same input. *)
Definition taken (p p' : Pos) : list ascii :=
  firstn (length (snd p) - length (snd p')) (snd p).

Definition Cont : Type := Pos -> Caps -> option (Pos * Caps).

(** [.*?]: try the continuation first, then one more character. *)
Fixpoint lazy_dots (fl : Flags) (k : Cont) (prev : option ascii)
    (rest : list ascii) (c : Caps) : option (Pos * Caps) :=
  match k (prev, rest) c with
  | Some res => Some res
  | None =>
      match rest with
      | [] => None
      | a :: rest' =>
          if dot_matches fl a then lazy_dots fl k (Some a) rest' c else None
      end
  end.

(** [.*]: as many characters as possible first. *)
Fixpoint greedy_dots (fl : Flags) (k : Cont) (prev : option ascii)
    (rest : list ascii) (c : Caps) : option (Pos * Caps) :=
  match rest with
  | [] => k (prev, rest) c
  | a :: rest' =>
      if dot_matches fl a then
        match greedy_dots fl k (Some a) rest' c with
        | Some res => Some res
        | None => k (prev, rest) c
        end
      else k (prev, rest) c
  end.

(** The backtracking matcher, in continuation-passing style: [rmatch fl r k
    p c] matches [r] at [p] and hands the position and captures after it to
    [k]; when [k] fails the next choice of [r] is tried. *)
Fixpoint rmatch (fl : Flags) (r : Regex) (k : Cont) (p : Pos) (c : Caps)
    : option (Pos * Caps) :=
  match r with
  | REmpty => k p c
  | RChar a =>
      match snd p with
      | x :: rest => if Ascii.eqb x a then k (Some x, rest) c else None
      | [] => None
      end
  | RDot =>
      match snd p with
      | x :: rest => if dot_matches fl x then k (Some x, rest) c else None
      | [] => None
      end
  | RSpace =>
      match snd p with
      | x :: rest => if is_space x then k (Some x, rest) c else None
      | [] => None
      end
  | RSeq r1 r2 => rmatch fl r1 (fun p' c' => rmatch fl r2 k p' c') p c
  | RAlt r1 r2 =>
      match rmatch fl r1 k p c with
      | Some res => Some res
      | None => rmatch fl r2 k p c
      end
  | ROpt r' =>
      match rmatch fl r' k p c with
      | Some res => Some res
      | None => k p c
      end
  | RLazyDots => lazy_dots fl k (fst p) (snd p) c
  | RGreedyDots => greedy_dots fl k (fst p) (snd p) c
  | RGroup n r' => rmatch fl r' (fun p' c' => k p' ((n, taken p p') :: c')) p c
  | RBol => if at_bol fl p then k p c else None
  | REol => if at_eol fl p then k p c else None
  | RLook r' =>
      match rmatch fl r' (fun p' c' => Some (p', c')) p c with
      | Some _ => k p c
      | None => None
      end
  end.

Definition accept : Cont := fun p c => Some (p, c).

(** A literal word. *)
Fixpoint lit_chars (l : list ascii) : Regex :=
  match l with
  | [] => REmpty
  | a :: l' => RSeq (RChar a) (lit_chars l')
  end.

Definition lit (s : string) : Regex := lit_chars (list_ascii_of_string s).

Fixpoint seqs (rs : list Regex) : Regex :=
  match rs with
  | [] => REmpty
  | r :: rs' => RSeq r (seqs rs')
  end.

(** A successful match: the input before it, the matched text, the position
    after it and the captures. *)
Record Match := {
  m_before : list ascii;
  m_text : list ascii;
  m_after : Pos;
  m_caps : Caps
}.

(** The leftmost match at or after a position ([RegExp.prototype.exec]
    without the sticky flag). [skipped] holds, reversed, the characters
    passed over so far. *)
Fixpoint search_from (fl : Flags) (r : Regex) (skipped : list ascii)
    (prev : option ascii) (rest : list ascii) : option Match :=
  match rmatch fl r accept (prev, rest) [] with
  | Some (p', c) =>
      Some {| m_before := rev skipped;
              m_text := taken (prev, rest) p';
              m_after := p';
              m_caps := c |}
  | None =>
      match rest with
      | [] => None
      | a :: rest' => search_from fl r (a :: skipped) (Some a) rest'
      end
  end.

Definition exec (fl : Flags) (r : Regex) (s : string) : option Match :=
  search_from fl r [] None (list_ascii_of_string s).

(** [RegExp.prototype.test]. *)
Definition test (fl : Flags) (r : Regex) (s : string) : bool :=
  match exec fl r s with Some _ => true | None => false end.

(** The value of capture group [n]: [None] is JavaScript's [undefined]. *)
Fixpoint capture (c : Caps) (n : nat) : option string :=
  match c with
  | [] => None
  | (m, txt) :: c' =>
      if Nat.eqb m n then Some (string_of_list_ascii txt) else capture c' n
  end.

(** [s.replace(r, "")] for a pattern without the [g] flag: only the first
    match is removed. *)
Definition remove_first (fl : Flags) (r : Regex) (s : string) : string :=
  match exec fl r s with
  | None => s
  | Some m => string_of_list_ascii (m_before m ++ snd (m_after m))
  end.

(** [s.replace(r, "")] for a pattern with the [g] flag: every match is
    removed, scanning on from the end of the previous match (one character
    further after an empty match). The fuel bounds the number of matches
    by the length of the input. *)
Fixpoint remove_all_from (fuel : nat) (fl : Flags) (r : Regex)
    (prev : option ascii) (rest : list ascii) : list ascii :=
  match fuel with
  | 0 => rest
  | S fuel' =>
      match search_from fl r [] prev rest with
      | None => rest
      | Some m =>
          match m_text m, snd (m_after m) with
          | [], a :: rest' =>
              m_before m ++ a :: remove_all_from fuel' fl r (Some a) rest'
          | [], [] => m_before m
          | _ :: _, rest' =>
              m_before m ++ remove_all_from fuel' fl r (fst (m_after m)) rest'
          end
      end
  end.

Definition remove_all (fl : Flags) (r : Regex) (s : string) : string :=
  let l := list_ascii_of_string s in
  string_of_list_ascii (remove_all_from (S (length l)) fl r None l).

(** [s.split(",")]: the pieces between the commas; never an empty list. *)
Fixpoint split_comma_from (cur : list ascii) (l : list ascii) : list string :=
  match l with
  | [] => [string_of_list_ascii (rev cur)]
  | a :: l' =>
      if Ascii.eqb a ","%char
      then string_of_list_ascii (rev cur) :: split_comma_from [] l'
      else split_comma_from (a :: cur) l'
  end.

Definition split_comma (s : string) : list string :=
  split_comma_from [] (list_ascii_of_string s).

End Rx.

(** ** The signature extractor: [extractParameterNames] *)

(** ["^class .*?constructor\\((.*?)\\)"], also the pattern that
    [firstExplicitConstructor] tests. *)
Definition class_constructor_pattern (group : nat) : Rx.Regex :=
  Rx.seqs [Rx.RBol; Rx.lit "class "; Rx.RLazyDots; Rx.lit "constructor(";
           Rx.RGroup group Rx.RLazyDots; Rx.RChar ")"].

(** ["^.*?\\((.*?)\\)"] *)
Definition instance_method_pattern : Rx.Regex :=
  Rx.seqs [Rx.RBol; Rx.RLazyDots; Rx.RChar "(";
           Rx.RGroup 2 Rx.RLazyDots; Rx.RChar ")"].

(** ["^(?:async )?(.*?) ?=>"] *)
Definition single_arrow_pattern : Rx.Regex :=
  Rx.seqs [Rx.RBol; Rx.ROpt (Rx.lit "async "); Rx.RGroup 3 Rx.RLazyDots;
           Rx.ROpt (Rx.RChar " "); Rx.lit "=>"].

(** ["^\\((.*?)\\) ?=>"] *)
Definition arrow_pattern : Rx.Regex :=
  Rx.seqs [Rx.RBol; Rx.RChar "("; Rx.RGroup 4 Rx.RLazyDots; Rx.RChar ")";
           Rx.ROpt (Rx.RChar " "); Rx.lit "=>"].

(** ["^function.*?\\((.*?)\\)"] *)
Definition function_pattern : Rx.Regex :=
  Rx.seqs [Rx.RBol; Rx.lit "function"; Rx.RLazyDots; Rx.RChar "(";
           Rx.RGroup 5 Rx.RLazyDots; Rx.RChar ")"].

(** [new RegExp(captureGroups.join("|"), "ms")] *)
Definition captureGroups : Rx.Regex :=
  Rx.RAlt (class_constructor_pattern 1)
    (Rx.RAlt instance_method_pattern
       (Rx.RAlt single_arrow_pattern
          (Rx.RAlt arrow_pattern function_pattern))).

(** [/\/\/.*$/gm] *)
Definition line_comment : Rx.Regex :=
  Rx.seqs [Rx.lit "//"; Rx.RGreedyDots; Rx.REol].

(** [/\/\*.*?\*\//gm] *)
Definition block_comment : Rx.Regex :=
  Rx.seqs [Rx.lit "/*"; Rx.RLazyDots; Rx.lit "*/"].

(** [/^\(|\)$/] *)
Definition enclosing_parenthesis : Rx.Regex :=
  Rx.RAlt (Rx.RSeq Rx.RBol (Rx.RChar "(")) (Rx.RSeq (Rx.RChar ")") Rx.REol).

(** [/=.*?(?=,|$)/g] *)
Definition default_value : Rx.Regex :=
  Rx.seqs [Rx.RChar "="; Rx.RLazyDots;
           Rx.RLook (Rx.RAlt (Rx.RChar ",") Rx.REol)].

(** [parameterMatch.slice(1).reduce((defaultValue, match) => match ||
    defaultValue, EMPTY)]: the last capture that is neither [undefined] nor
    the empty string, and the empty string when there is none. *)
Definition parameterString (caps : Rx.Caps) : string :=
  fold_left
    (fun defaultValue n =>
       match Rx.capture caps n with
       | Some EmptyString | None => defaultValue
       | Some m => m
       end)
    [1; 2; 3; 4; 5] EmptyString.

(** [extractParameterNames(target)], on the text [target.toString()]. *)
Definition extractParameterNames (target : string) : list string :=
  match Rx.exec Rx.flags_ms captureGroups target with
  | None => []
  | Some parameterMatch =>
      Rx.split_comma
        (Rx.remove_all Rx.flags_none default_value
           (Rx.remove_first Rx.flags_none enclosing_parenthesis
              (Rx.remove_all Rx.flags_m Rx.RSpace
                 (Rx.remove_all Rx.flags_m block_comment
                    (Rx.remove_all Rx.flags_m line_comment
                       (parameterString (Rx.m_caps parameterMatch)))))))
  end.

(** ** Values, callables and the container *)

(** JavaScript values, as far as the container can tell them apart.
    Objects are references: two [VObject]s are the same object exactly when
    their addresses are equal. [VObjectPrototype m] is the member [m] of
    [Object.prototype] (a built-in function, or the prototype itself for
    [__proto__]). *)
Inductive Value : Type :=
| VUndefined
| VString (s : string)
| VNumber (n : Z)
| VObject (address : nat)
| VObjectPrototype (member : string).

(** What the runtime did so far on behalf of the container: every
    application of a user function and every [Reflect.construct]. *)
Inductive Event : Type :=
| Applied (fn : nat) (arguments : list Value)
| Constructed (cls : nat) (arguments : list Value).

(** How a call of user code ends. [ReturnsFresh] is the return of an object
    created by the call (as in [() => new Foo()] or [() => [1]]). *)
Inductive Completion : Type :=
| Returns (v : Value)
| ReturnsFresh
| Throws (v : Value).

(** A user function: its identity, the text [toString()] gives for it, and
    its behaviour. Closures carry state ([() => ++value]), so the behaviour
    may depend on the events so far. *)
Record Function : Type := {
  fn_id : nat;
  fn_text : string;
  fn_body : list Event -> list Value -> Completion
}.

(** How running a constructor ends. It initialises the new object, which
    is then the result of [Reflect.construct]; or it returns an object of
    its own ([return shared]), which is then the result, the new object
    being dropped; or it throws. (A constructor of a base class that
    returns a value that is no object initialises; in a derived class the
    engine throws then, which is among [Fails].) *)
Inductive Construction : Type :=
| Initialises
| ReturnsObject (address : nat)
| Fails (v : Value).

(** A constructible on its own: its identity, its text, and how running
    its constructor on given arguments ends. *)
Record Declaration : Type := {
  cls_id : nat;
  cls_text : string;
  cls_body : list Event -> list Value -> Construction
}.

(** A constructible with its prototype chain: [cls_ancestors] lists
    [Object.getPrototypeOf] of it, of that, and so on, up to but not
    including [Function.prototype] (so it is empty for a class that extends
    nothing and for a [function]). *)
Record Class : Type := {
  cls_own : Declaration;
  cls_ancestors : list Declaration
}.

(** An object on the heap: who made it, and from which arguments. *)
Inductive Origin : Type :=
| ByClass (cls : nat)
| ByFunction (fn : nat).

Record Object : Type := {
  obj_origin : Origin;
  obj_arguments : list Value
}.

(** A plain object used as [parameters]: its own properties, and whether
    [Object.prototype] is on its prototype chain (it is for an object
    literal, it is not for [Object.create(null)]). *)
Record NamedParameters : Type := {
  own : gmap string Value;
  inherits_Object_prototype : bool
}.

(** The property names of [Object.prototype]. *)
Definition Object_prototype_names : list string :=
  ["constructor"; "__defineGetter__"; "__defineSetter__"; "hasOwnProperty";
   "__lookupGetter__"; "__lookupSetter__"; "isPrototypeOf";
   "propertyIsEnumerable"; "toString"; "valueOf"; "__proto__";
   "toLocaleString"].

Definition inherited (name : string) (o : NamedParameters) : bool :=
  inherits_Object_prototype o
  && existsb (String.eqb name) Object_prototype_names.

Definition map_has {A} (m : gmap string A) (key : string) : bool :=
  match m !! key with Some _ => true | None => false end.

(** [name in o]: own or inherited. *)
Definition js_in (name : string) (o : NamedParameters) : bool :=
  map_has (own o) name || inherited name o.

(** [o[name]] *)
Definition js_get (o : NamedParameters) (name : string) : Value :=
  match own o !! name with
  | Some v => v
  | None => if inherited name o then VObjectPrototype name else VUndefined
  end.

(** The object literal [{}] and [{k1: v1, ...}]. *)
Definition object_literal (props : list (string * Value)) : NamedParameters :=
  {| own := list_to_map props; inherits_Object_prototype := true |}.

Definition empty_object : NamedParameters := object_literal [].

(** What a binding's [factory] can be: a function given to [bindFactory],
    or the arrow function [() => this.construct(constructor)] that
    [bindConstructor] creates. *)
Inductive Callable : Type :=
| UserFunction (f : Function)
| ConstructArrow (constructor : Class).

Definition construct_arrow_text : string :=
  "() => this.construct(constructor)".

Definition callable_text (f : Callable) : string :=
  match f with
  | UserFunction f => fn_text f
  | ConstructArrow _ => construct_arrow_text
  end.

Record Binding : Type := {
  factory : Callable;
  singleton : bool
}.

(** The container ([bindings], [instances], [aliases]) together with the
    part of the runtime its operations touch: the heap of objects and the
    events so far. *)
Record Container : Type := {
  bindings : gmap string Binding;
  instances : gmap string Value;
  aliases : gmap string string;
  heap : list Object;
  events : list Event
}.

(** [new Container()] in a fresh runtime. *)
Definition new_Container : Container :=
  {| bindings := ∅; instances := ∅; aliases := ∅; heap := []; events := [] |}.

Definition set_bindings (b : gmap string Binding) (c : Container) : Container :=
  {| bindings := b; instances := instances c; aliases := aliases c;
     heap := heap c; events := events c |}.

Definition set_instances (i : gmap string Value) (c : Container) : Container :=
  {| bindings := bindings c; instances := i; aliases := aliases c;
     heap := heap c; events := events c |}.

Definition set_aliases (a : gmap string string) (c : Container) : Container :=
  {| bindings := bindings c; instances := instances c; aliases := a;
     heap := heap c; events := events c |}.

Definition log (e : Event) (c : Container) : Container :=
  {| bindings := bindings c; instances := instances c; aliases := aliases c;
     heap := heap c; events := events c ++ [e] |}.

(** A new object: its address is the next free one. *)
Definition allocate (o : Object) (c : Container) : Value * Container :=
  (VObject (length (heap c)),
   {| bindings := bindings c; instances := instances c; aliases := aliases c;
      heap := heap c ++ [o]; events := events c |}).

(** Errors: [new Error(message)], a [TypeError] of the runtime, and
    whatever user code throws. *)
Inductive JsError : Type :=
| Error (message : string)
| TypeError
| Thrown (v : Value).

Definition UnknownIdentifier (identifier : string) : JsError :=
  Error ("Unknown identifier: " ++ identifier).

(** How an operation ends: it returns, it throws (the container keeps what
    was done before the throw), or it never returns. *)
Inductive Outcome (A : Type) : Type :=
| Ret (a : A) (c : Container)
| Throw (e : JsError) (c : Container)
| OutOfFuel.
Arguments Ret {A} a c.
Arguments Throw {A} e c.
Arguments OutOfFuel {A}.

Definition bind {A B} (o : Outcome A) (k : A -> Container -> Outcome B)
    : Outcome B :=
  match o with
  | Ret a c => k a c
  | Throw e c => Throw e c
  | OutOfFuel => OutOfFuel
  end.

(** ** The operations of [Container] *)

Definition has (identifier : string) (c : Container) : bool :=
  map_has (bindings c) identifier
  || map_has (instances c) identifier
  || map_has (aliases c) identifier.

(** [this.aliases.get(identifier) || identifier]: the empty string is falsy,
    as [undefined] is. *)
Definition resolveIdentifier (identifier : string) (c : Container) : string :=
  match aliases c !! identifier with
  | Some EmptyString | None => identifier
  | Some target => target
  end.

Definition createSingletonFromBinding (identifier : string) (value : Value)
    (c : Container) : Container :=
  set_bindings (delete identifier (bindings c))
    (set_instances (<[identifier := value]> (instances c)) c).

(** The loop of [firstExplicitConstructor], at [parentConstructor] with the
    rest of its prototype chain. *)
Fixpoint explicit_from (parentConstructor : Declaration)
    (chain : list Declaration) : option Class :=
  if Rx.test Rx.flags_ms (class_constructor_pattern 1)
       (cls_text parentConstructor)
  then Some {| cls_own := parentConstructor; cls_ancestors := chain |}
  else
    match chain with
    | [] => None
    | parent :: chain' => explicit_from parent chain'
    end.

Definition firstExplicitConstructor (constructor : Class) : Class :=
  match explicit_from (cls_own constructor) (cls_ancestors constructor) with
  | Some parentConstructor => parentConstructor
  | None => constructor
  end.

Section Resolution.

(** [this.get], as far as the fuel of the caller reaches. *)
Variable get_rec : string -> Container -> Outcome Value.

Definition resolveParameter (name : string) (parameters : NamedParameters)
    (c : Container) : Outcome Value :=
  if js_in name parameters then Ret (js_get parameters name) c
  else if has name c then get_rec name c
  else Ret VUndefined c.

(** [parameterNames.map(name => this.resolveParameter(name, parameters))] *)
Fixpoint resolveParameters (parameterNames : list string)
    (parameters : NamedParameters) (c : Container) : Outcome (list Value) :=
  match parameterNames with
  | [] => Ret [] c
  | name :: names =>
      bind (resolveParameter name parameters c) (fun v c1 =>
      bind (resolveParameters names parameters c1) (fun vs c2 =>
      Ret (v :: vs) c2))
  end.

(** [Reflect.construct(constructor, args)] *)
Definition Reflect_construct (constructor : Class) (args : list Value)
    (c : Container) : Outcome Value :=
  let d := cls_own constructor in
  let c1 := log (Constructed (cls_id d) args) c in
  match cls_body d (events c) args with
  | Initialises =>
      let '(v, c2) :=
        allocate {| obj_origin := ByClass (cls_id d); obj_arguments := args |}
          c1 in
      Ret v c2
  | ReturnsObject address => Ret (VObject address) c1
  | Fails e => Throw (Thrown e) c1
  end.

Definition construct_with (constructor : Class) (parameters : NamedParameters)
    (c : Container) : Outcome Value :=
  bind
    (resolveParameters
       (extractParameterNames
          (cls_text (cls_own (firstExplicitConstructor constructor))))
       parameters c)
    (Reflect_construct constructor).

(** [func.apply(func, args)] *)
Definition apply (func : Callable) (args : list Value) (c : Container)
    : Outcome Value :=
  match func with
  | UserFunction f =>
      let c1 := log (Applied (fn_id f) args) c in
      match fn_body f (events c) args with
      | Returns v => Ret v c1
      | ReturnsFresh =>
          let '(v, c2) :=
            allocate {| obj_origin := ByFunction (fn_id f);
                        obj_arguments := args |} c1 in
          Ret v c2
      | Throws e => Throw (Thrown e) c1
      end
  | ConstructArrow constructor =>
      construct_with constructor empty_object c
  end.

Definition invoke_with (func : Callable) (parameters : NamedParameters)
    (signature : option Callable) (c : Container) : Outcome Value :=
  bind
    (resolveParameters
       (extractParameterNames
          (callable_text (match signature with Some s => s | None => func end)))
       parameters c)
    (apply func).

End Resolution.

Fixpoint get (fuel : nat) (identifier : string) (c : Container)
    : Outcome Value :=
  if negb (has identifier c) then Throw (UnknownIdentifier identifier) c
  else
    let identifier := resolveIdentifier identifier c in
    match instances c !! identifier with
    | Some value => Ret value c
    | None =>
        match bindings c !! identifier with
        | None => Throw TypeError c
        | Some b =>
            match fuel with
            | 0 => OutOfFuel
            | S fuel' =>
                bind (invoke_with (get fuel') (factory b) empty_object None c)
                  (fun value c1 =>
                     Ret value
                       (if singleton b
                        then createSingletonFromBinding identifier value c1
                        else c1))
            end
        end
    end.

Definition construct (fuel : nat) (constructor : Class)
    (parameters : NamedParameters) (c : Container) : Outcome Value :=
  construct_with (get fuel) constructor parameters c.

Definition invoke (fuel : nat) (func : Function) (parameters : NamedParameters)
    (signature : option Function) (c : Container) : Outcome Value :=
  invoke_with (get fuel) (UserFunction func) parameters
    (option_map UserFunction signature) c.

Definition bindInstance (identifier : string) (instance : Value)
    (c : Container) : Container :=
  set_instances (<[identifier := instance]> (instances c)) c.

Definition bindConstructor (identifier : string) (constructor : Class)
    (singleton : bool) (c : Container) : Container :=
  set_bindings
    (<[identifier := {| factory := ConstructArrow constructor;
                        singleton := singleton |}]> (bindings c)) c.

Definition bindFactory (identifier : string) (factory : Function)
    (singleton : bool) (c : Container) : Container :=
  set_bindings
    (<[identifier := {| factory := UserFunction factory;
                        singleton := singleton |}]> (bindings c)) c.

Definition makeSingleton (identifier : string) (c : Container)
    : Outcome unit :=
  if negb (has identifier c) then Throw (UnknownIdentifier identifier) c
  else
    let identifier := resolveIdentifier identifier c in
    if map_has (instances c) identifier then Ret tt c
    else
      match bindings c !! identifier with
      | None => Throw TypeError c
      | Some b =>
          Ret tt
            (set_bindings
               (<[identifier := {| factory := factory b; singleton := true |}]>
                  (bindings c)) c)
      end.

(** The loop of [alias]: follow the aliases from [identifier] until an
    identifier that is not an alias. It need not end (an alias may lead
    back to itself), so it takes fuel. *)
Fixpoint alias_target (fuel : nat) (a : gmap string string)
    (identifier : string) : option string :=
  match a !! identifier with
  | None => Some identifier
  | Some next =>
      match fuel with
      | 0 => None
      | S fuel' => alias_target fuel' a next
      end
  end.

Definition alias (fuel : nat) (identifier : string) (alias : string)
    (c : Container) : Outcome unit :=
  match alias_target fuel (aliases c) identifier with
  | None => OutOfFuel
  | Some identifier =>
      Ret tt (set_aliases (<[alias := identifier]> (aliases c)) c)
  end.

(** ** Sequences of public operations *)

Inductive Operation : Type :=
| Has (identifier : string)
| Get (identifier : string)
| Construct (constructor : Class) (parameters : NamedParameters)
| Invoke (func : Function) (parameters : NamedParameters)
    (signature : option Function)
| BindInstance (identifier : string) (instance : Value)
| BindConstructor (identifier : string) (constructor : Class)
    (singleton : bool)
| BindFactory (identifier : string) (factory : Function) (singleton : bool)
| MakeSingleton (identifier : string)
| Alias (identifier : string) (alias : string).

(** The container after an operation, returned or thrown ([None] when the
    operation does not return). *)
Definition state_after {A} (o : Outcome A) : option Container :=
  match o with
  | Ret _ c | Throw _ c => Some c
  | OutOfFuel => None
  end.

Definition perform (fuel : nat) (op : Operation) (c : Container)
    : option Container :=
  match op with
  | Has _ => Some c
  | Get identifier => state_after (get fuel identifier c)
  | Construct constructor parameters =>
      state_after (construct fuel constructor parameters c)
  | Invoke func parameters signature =>
      state_after (invoke fuel func parameters signature c)
  | BindInstance identifier instance =>
      Some (bindInstance identifier instance c)
  | BindConstructor identifier constructor singleton =>
      Some (bindConstructor identifier constructor singleton c)
  | BindFactory identifier factory singleton =>
      Some (bindFactory identifier factory singleton c)
  | MakeSingleton identifier => state_after (makeSingleton identifier c)
  | Alias identifier al => state_after (alias fuel identifier al c)
  end.

(** A caller that runs the operations one after the other, catching what
    they throw. *)
Fixpoint run (fuel : nat) (ops : list Operation) (c : Container)
    : option Container :=
  match ops with
  | [] => Some c
  | op :: ops' =>
      match perform fuel op c with
      | Some c' => run fuel ops' c'
      | None => None
      end
  end.

(** ** Notions used to state the properties *)

(** What a call of [get], [construct] or [invoke] can do to the container,
    whether it returns or throws: the aliases stay, instances stay and new
    ones only appear under identifiers that had a binding, bindings only
    disappear, the heap and the events only grow. *)
Record evolves (c c' : Container) : Prop := {
  ev_aliases : aliases c' = aliases c;
  ev_instances : ∀ k v, instances c !! k = Some v → instances c' !! k = Some v;
  ev_bindings : ∀ k b, bindings c' !! k = Some b → bindings c !! k = Some b;
  ev_fresh : ∀ k, instances c !! k = None → bindings c !! k = None →
                  instances c' !! k = None;
  ev_has : ∀ k, has k c = true → has k c' = true;
  ev_heap : heap c `prefix_of` heap c';
  ev_events : events c `prefix_of` events c'
}.

Definition ends_in {A} (R : Container → Container → Prop) (c : Container)
    (o : Outcome A) : Prop :=
  match o with
  | Ret _ c' | Throw _ c' => R c c'
  | OutOfFuel => True
  end.

(** The operations that register [i]: they write under the key [i] in one
    of the three maps. *)
Definition registers (i : string) (op : Operation) : bool :=
  match op with
  | BindInstance k _ | BindConstructor k _ _ | BindFactory k _ _
  | Alias _ k => String.eqb k i
  | Has _ | Get _ | Construct _ _ | Invoke _ _ _ | MakeSingleton _ => false
  end.

(** The operations that rebind [i] as far as [get(i)] on an instance can
    tell: a new instance under [i], or [i] made an alias. *)
Definition rebinds (i : string) (op : Operation) : bool :=
  match op with
  | BindInstance k _ | Alias _ k => String.eqb k i
  | Has _ | Get _ | Construct _ _ | Invoke _ _ _ | MakeSingleton _
  | BindConstructor _ _ _ | BindFactory _ _ _ => false
  end.

(** [i] is held as the instance [v], and is not redirected by an alias. *)
Definition holds_instance (i : string) (v : Value) (c : Container) : Prop :=
  instances c !! i = Some v ∧ resolveIdentifier i c = i.

(** The alias map is flat: no alias leads to another alias. *)
Definition flat (a : gmap string string) : Prop :=
  ∀ k t, a !! k = Some t → a !! t = None.

(** Where one step along the aliases leads from [identifier]: its target
    when it is an alias, itself when it is not. *)
Definition direct_target (identifier : string) (c : Container) : string :=
  default identifier (aliases c !! identifier).

(** No declaration form of [captureGroups] matches the text. *)
Definition unparseable (text : string) : Prop :=
  Rx.exec Rx.flags_ms captureGroups text = None.

(** The text passes the test of [firstExplicitConstructor]. *)
Definition declares_constructor (d : Declaration) : bool :=
  Rx.test Rx.flags_ms (class_constructor_pattern 1) (cls_text d).

(** A constructor that only initialises the new object: it never throws
    and returns no object of its own. *)
Definition only_initialises (_ : list Event) (_ : list Value)
    : Construction :=
  Initialises.

(** [class A { foo(x) {} }]: a class with a method and no constructor, that
    extends nothing. *)
Definition class_with_method : Class :=
  {| cls_own := {| cls_id := 1; cls_text := "class A { foo(x) {} }";
                   cls_body := only_initialises |};
     cls_ancestors := [] |}.

(** [function make(constructor) { return constructor; }] *)
Definition returns_its_argument : Function :=
  {| fn_id := 1;
     fn_text := "function make(constructor) { return constructor; }";
     fn_body := fun _ args => Returns (List.hd VUndefined args) |}.

(** The parameter names that invoking a binding's factory resolves, in
    order: those of the function, or those of the arrow function of
    [bindConstructor] followed by those of the constructor. *)
Definition factory_names (f : Callable) : list string :=
  match f with
  | UserFunction f => extractParameterNames (fn_text f)
  | ConstructArrow constructor =>
      extractParameterNames construct_arrow_text
      ++ extractParameterNames
           (cls_text (cls_own (firstExplicitConstructor constructor)))
  end.

(** The event is an application of the function, or a construction of the
    class, that the factory stands for. *)
Definition made_by (f : Callable) (e : Event) : bool :=
  match f, e with
  | UserFunction f, Applied fn _ => Nat.eqb (fn_id f) fn
  | ConstructArrow constructor, Constructed cls _ =>
      Nat.eqb (cls_id (cls_own constructor)) cls
  | _, _ => false
  end.

(** How often the factory was used: the function applied, or the class
    constructed. *)
Definition uses_of (f : Callable) (ev : list Event) : nat :=
  length (List.filter (made_by f) ev).

Definition same_identity (f g : Callable) : bool :=
  match f, g with
  | UserFunction f, UserFunction g => Nat.eqb (fn_id f) (fn_id g)
  | ConstructArrow f, ConstructArrow g =>
      Nat.eqb (cls_id (cls_own f)) (cls_id (cls_own g))
  | _, _ => false
  end.

(** Identities are honest: a bound factory with the identity of [f] has the
    parameter names of [f]. *)
Definition identified (f : Callable) (c : Container) : Prop :=
  ∀ k b, bindings c !! k = Some b →
         same_identity f (factory b) = true →
         factory_names (factory b) = factory_names f.

(** [r] is bound by [b] and not yet an instance. *)
Definition pending (r : string) (b : Binding) (c : Container) : Prop :=
  bindings c !! r = Some b ∧ instances c !! r = None.

(** Invoking the factory of [b] resolves a name that [get] takes to [r']. *)
Definition leads_to (c : Container) (b : Binding) (r' : string) : Prop :=
  ∃ name, name ∈ factory_names (factory b)
          ∧ js_in name empty_object = false
          ∧ has name c = true
          ∧ resolveIdentifier name c = r'.

(** Every identifier of [ids] is pending and needs another one of them: a
    dependency cycle, or identifiers that wait for one. *)
Definition stuck (ids : list string) (c : Container) : Prop :=
  ∀ r, r ∈ ids → ∃ b r', pending r b c ∧ leads_to c b r' ∧ r' ∈ ids.

(** The identifiers that [get] is resolving, innermost first: each is
    pending and was reached from the one below it. *)
Inductive chain (c : Container) : list string → Prop :=
| chain_bottom r b : pending r b c → chain c [r]
| chain_push r r' ids b b' :
    chain c (r' :: ids) → pending r b c → pending r' b' c → leads_to c b' r →
    chain c (r :: r' :: ids).

(** [c'] is [c] after the factory [f] was used once: one more event, made
    by [f], and maybe one more object. *)
Definition used_once (f : Callable) (c c' : Container) : Prop :=
  bindings c' = bindings c ∧ instances c' = instances c
  ∧ aliases c' = aliases c
  ∧ ∃ e, made_by f e = true ∧ events c' = events c ++ [e].

(** [class A {}] *)
Definition class_A : Class :=
  {| cls_own := {| cls_id := 1; cls_text := "class A {}";
                   cls_body := only_initialises |};
     cls_ancestors := [] |}.

(** [() => ++value], with [value] counting the calls so far. *)
Definition counter : Function :=
  {| fn_id := 1;
     fn_text := "() => ++value";
     fn_body := fun ev _ =>
       Returns (VNumber (Z.of_nat (S (length
         (List.filter
            (fun e => match e with Applied 1 _ => true | _ => false end)
            ev))))) |}.

(** [bindFactory("name", counter, true)] on a new container, and the
    container after the first [get("name")]. *)
Definition counter_bound : Container :=
  bindFactory "name" counter true new_Container.

Definition counter_cached : Container :=
  createSingletonFromBinding "name" (VNumber 1)
    (log (Applied 1 [VUndefined]) counter_bound).

(** [bindConstructor("name", A, true)] on a new container, and the
    container after the first [get("name")]. *)
Definition class_A_bound : Container :=
  bindConstructor "name" class_A true new_Container.

Definition class_A_cached : Container :=
  createSingletonFromBinding "name" (VObject 0)
    (allocate {| obj_origin := ByClass 1; obj_arguments := [] |}
       (log (Constructed 1 []) class_A_bound)).2.

(** The value an operation returns, if it returns. *)
Definition returned {A} (o : Outcome A) : option A :=
  match o with
  | Ret a _ => Some a
  | Throw _ _ | OutOfFuel => None
  end.

(** A match of [r] consumes one of the characters of [l], as far as the
    shape of [r] tells. *)
Fixpoint needs_one_of (l : list ascii) (r : Rx.Regex) : bool :=
  match r with
  | Rx.RChar a => existsb (Ascii.eqb a) l
  | Rx.RSeq r1 r2 => needs_one_of l r1 || needs_one_of l r2
  | Rx.RAlt r1 r2 => needs_one_of l r1 && needs_one_of l r2
  | Rx.RGroup _ r' => needs_one_of l r'
  | Rx.REmpty | Rx.RDot | Rx.RSpace | Rx.ROpt _ | Rx.RLazyDots
  | Rx.RGreedyDots | Rx.RBol | Rx.REol | Rx.RLook _ => false
  end.

(** [class B { constructor(a) { this.a = a } }] and
    [class C { constructor(b) { this.b = b } }] *)
Definition class_B : Class :=
  {| cls_own := {| cls_id := 2;
                   cls_text := "class B { constructor(a) { this.a = a } }";
                   cls_body := only_initialises |};
     cls_ancestors := [] |}.

Definition class_C : Class :=
  {| cls_own := {| cls_id := 3;
                   cls_text := "class C { constructor(b) { this.b = b } }";
                   cls_body := only_initialises |};
     cls_ancestors := [] |}.

(** [class D extends B {}]: no constructor of its own. *)
Definition class_D : Class :=
  {| cls_own := {| cls_id := 4; cls_text := "class D extends B {}";
                   cls_body := only_initialises |};
     cls_ancestors := [cls_own class_B] |}.

(** [a => `${a}b`], on strings. *)
Definition append_b : Function :=
  {| fn_id := 2;
     fn_text := "a => `${a}b`";
     fn_body := fun _ args =>
       match args with
       | VString a :: _ => Returns (VString (a ++ "b"))
       | _ => Returns (VString "undefinedb")
       end |}.

Definition line_feed : string := String (ascii_of_nat 10) EmptyString.

(** What [k] returns on the container that the operations [ops] leave,
    starting from [new Container()]. *)
Definition after_running {A} (fuel : nat) (ops : list Operation)
    (k : Container → Outcome A) : option A :=
  match run fuel ops new_Container with
  | Some c => returned (k c)
  | None => None
  end.

(** The values of two [get]s in a row. *)
Definition get_twice (fuel : nat) (identifier : string) (c : Container)
    : Outcome (Value * Value) :=
  bind (get fuel identifier c) (fun v1 c1 =>
  bind (get fuel identifier c1) (fun v2 c2 => Ret (v1, v2) c2)).

(** A class whose [toString] was replaced by [() => EMPTY]. *)
Definition class_without_text : Class :=
  {| cls_own := {| cls_id := 5; cls_text := EmptyString;
                   cls_body := only_initialises |};
     cls_ancestors := [] |}.

(** The arguments an object on the heap was constructed from. *)
Definition arguments_of (v : Value) (c : Container) : option (list Value) :=
  match v with
  | VObject address => obj_arguments <$> heap c !! address
  | _ => None
  end.

(** One step along the aliases. *)
Definition alias_step (a : gmap string string) (x y : string) : Prop :=
  a !! x = Some y.

(** How instances come and bindings go, between two containers: an
    identifier becomes an instance only where a singleton binding was, and
    that binding is gone then; a binding goes only in that way. *)
Record promotes (c c' : Container) : Prop := {
  pr_new : ∀ k, instances c !! k = None → is_Some (instances c' !! k) →
    ∃ b, bindings c !! k = Some b ∧ singleton b = true
         ∧ bindings c' !! k = None;
  pr_gone : ∀ k b, bindings c !! k = Some b → bindings c' !! k = None →
    singleton b = true ∧ instances c !! k = None
    ∧ is_Some (instances c' !! k)
}.

(** What [get], [construct] and [invoke] do to the container. *)
Definition effects (c c' : Container) : Prop := evolves c c' ∧ promotes c c'.

(** The operations that resolve: [get], [construct] and [invoke]. *)
Definition resolves (op : Operation) : bool :=
  match op with
  | Get _ | Construct _ _ | Invoke _ _ _ => true
  | Has _ | BindInstance _ _ | BindConstructor _ _ _ | BindFactory _ _ _
  | MakeSingleton _ | Alias _ _ => false
  end.

(** The capture groups of a pattern (outside its lookaheads). *)
Fixpoint groups (r : Rx.Regex) : list nat :=
  match r with
  | Rx.RGroup n r' => n :: groups r'
  | Rx.RSeq r1 r2 | Rx.RAlt r1 r2 => groups r1 ++ groups r2
  | Rx.ROpt r' => groups r'
  | Rx.REmpty | Rx.RChar _ | Rx.RDot | Rx.RSpace | Rx.RLazyDots
  | Rx.RGreedyDots | Rx.RBol | Rx.REol | Rx.RLook _ => []
  end.

(** The text has an opening parenthesis with a closing one after it. *)
Definition paren_pair (l : list ascii) : Prop :=
  ∃ pre mid post, l = pre ++ "("%char :: mid ++ ")"%char :: post.

(** The text has an arrow [=>]. *)
Definition arrow (l : list ascii) : Prop :=
  ∃ pre post, l = pre ++ "="%char :: ">"%char :: post.

(** The character before the position reached after [pre]. *)
Definition prev_after (prev : option ascii) (pre : list ascii)
    : option ascii :=
  match last pre with
  | Some a => Some a
  | None => prev
  end.

(** [\((.*?)\)] followed by [tail]. *)
Definition paren_group (n : nat) (tail : Rx.Regex) : Rx.Regex :=
  Rx.RSeq (Rx.RChar "(")
    (Rx.RSeq (Rx.RGroup n Rx.RLazyDots) (Rx.RSeq (Rx.RChar ")") tail)).

(** [bindFactory("name", counter)] and [bindConstructor("name", A)] on a
    new container: bindings that are no singletons. *)
Definition counter_transient : Container :=
  bindFactory "name" counter false new_Container.




(** [a => a] *)
Definition needs_its_parameter : Function :=
  {| fn_id := 3; fn_text := "a => a";
     fn_body := fun _ args => Returns (List.hd VUndefined args) |}.

(** [bindFactory("a", a => a)] on a new container: resolving [a] needs
    [a]. *)
Definition bound_to_itself : Container :=
  bindFactory "a" needs_its_parameter false new_Container.


(** [class Config { constructor() { return shared } }], where [shared] is
    an object that exists already. *)
Definition class_Config : Class :=
  {| cls_own :=
       {| cls_id := 6;
          cls_text := "class Config { constructor() { return shared } }";
          cls_body := fun _ _ => ReturnsObject 0 |};
     cls_ancestors := [] |}.

(** * Properties *)

(** ** What the operations leave alone *)

Lemma map_has_true {A} (m : gmap string A) k :
  map_has m k = true ↔ is_Some (m !! k).
Proof.
  unfold map_has. destruct (m !! k); split; intros H; done.
Qed.

Lemma map_has_false {A} (m : gmap string A) k :
  map_has m k = false ↔ m !! k = None.
Proof. unfold map_has. destruct (m !! k); split; intros H; done. Qed.

Lemma has_false identifier c :
  has identifier c = false ↔
  bindings c !! identifier = None ∧ instances c !! identifier = None
  ∧ aliases c !! identifier = None.
Proof.
  unfold has. rewrite !orb_false_iff, !map_has_false. tauto.
Qed.

Lemma has_true identifier c :
  has identifier c = true ↔
  is_Some (bindings c !! identifier) ∨ is_Some (instances c !! identifier)
  ∨ is_Some (aliases c !! identifier).
Proof.
  unfold has. rewrite !orb_true_iff, !map_has_true. tauto.
Qed.

Lemma evolves_refl c : evolves c c.
Proof. by split. Qed.

Lemma evolves_trans c1 c2 c3 : evolves c1 c2 → evolves c2 c3 → evolves c1 c3.
Proof.
  intros [A1 I1 B1 F1 H1 P1 E1] [A2 I2 B2 F2 H2 P2 E2]. split.
  - congruence.
  - eauto.
  - eauto.
  - intros k Hi Hb. apply F2; [by apply F1 |].
    destruct (bindings c2 !! k) eqn:E; [| done].
    apply B1 in E. congruence.
  - eauto.
  - by etrans.
  - by etrans.
Qed.

Lemma evolves_log c e : evolves c (log e c).
Proof. split; simpl; auto. by apply prefix_app_r. Qed.

Lemma evolves_allocate c o : evolves c (allocate o c).2.
Proof. split; simpl; auto. by apply prefix_app_r. Qed.

Lemma evolves_promote c c1 identifier value b :
  bindings c !! identifier = Some b →
  instances c !! identifier = None →
  evolves c c1 →
  evolves c (createSingletonFromBinding identifier value c1).
Proof.
  intros Hb Hi [A I B F H P E]. split; simpl; auto.
  - intros k v Hk. destruct (decide (identifier = k)) as [-> | Hne].
    + congruence.
    + rewrite lookup_insert_ne; auto.
  - intros k b'. destruct (decide (identifier = k)) as [-> | Hne].
    + by rewrite lookup_delete_eq.
    + rewrite lookup_delete_ne; auto.
  - intros k Hk Hk'. destruct (decide (identifier = k)) as [-> | Hne].
    + congruence.
    + rewrite lookup_insert_ne; auto.
  - intros k Hk. apply H in Hk. apply has_true in Hk. apply has_true. simpl.
    destruct (decide (identifier = k)) as [-> | Hne].
    + right; left. rewrite lookup_insert_eq. by eexists.
    + rewrite lookup_delete_ne, lookup_insert_ne; auto.
Qed.

Section Frame.

Variable get_rec : string → Container → Outcome Value.
Hypothesis get_rec_evolves : ∀ identifier c,
  ends_in evolves c (get_rec identifier c).

Lemma resolveParameter_evolves name parameters c :
  ends_in evolves c (resolveParameter get_rec name parameters c).
Proof.
  unfold resolveParameter.
  destruct (js_in name parameters); [apply evolves_refl |].
  destruct (has name c); [apply get_rec_evolves | apply evolves_refl].
Qed.

Lemma resolveParameters_evolves names parameters c :
  ends_in evolves c (resolveParameters get_rec names parameters c).
Proof.
  revert c. induction names as [| name names IH]; intros c; simpl.
  - apply evolves_refl.
  - pose proof (resolveParameter_evolves name parameters c) as H1.
    destruct (resolveParameter get_rec name parameters c) as [v c1 | e c1 |];
      simpl in *; auto.
    pose proof (IH c1) as H2.
    destruct (resolveParameters get_rec names parameters c1)
      as [vs c2 | e c2 |]; simpl in *; auto; by eapply evolves_trans.
Qed.

Lemma Reflect_construct_evolves constructor args c :
  ends_in evolves c (Reflect_construct constructor args c).
Proof.
  unfold Reflect_construct.
  destruct (cls_body _ _ _); simpl.
  - eapply evolves_trans; [apply evolves_log |].
    exact (evolves_allocate (log _ c) _).
  - apply evolves_log.
  - apply evolves_log.
Qed.

Lemma construct_with_evolves constructor parameters c :
  ends_in evolves c (construct_with get_rec constructor parameters c).
Proof.
  unfold construct_with.
  pose proof (resolveParameters_evolves
    (extractParameterNames
       (cls_text (cls_own (firstExplicitConstructor constructor))))
    parameters c) as H1.
  destruct (resolveParameters _ _ _ _) as [vs c1 | e c1 |]; simpl in *; auto.
  pose proof (Reflect_construct_evolves constructor vs c1) as H2.
  destruct (Reflect_construct _ _ _); simpl in *; auto;
    by eapply evolves_trans.
Qed.

Lemma apply_evolves func args c :
  ends_in evolves c (apply get_rec func args c).
Proof.
  destruct func as [f | constructor]; simpl.
  - destruct (fn_body f (events c) args); simpl.
    + apply evolves_log.
    + eapply evolves_trans; [apply evolves_log |].
      exact (evolves_allocate (log _ c) _).
    + apply evolves_log.
  - apply construct_with_evolves.
Qed.

Lemma invoke_with_evolves func parameters signature c :
  ends_in evolves c (invoke_with get_rec func parameters signature c).
Proof.
  unfold invoke_with.
  match goal with |- context [resolveParameters _ ?n _ _] =>
    pose proof (resolveParameters_evolves n parameters c) as H1 end.
  destruct (resolveParameters _ _ _ _) as [vs c1 | e c1 |]; simpl in *; auto.
  pose proof (apply_evolves func vs c1) as H2.
  destruct (apply _ _ _ _); simpl in *; auto; by eapply evolves_trans.
Qed.

End Frame.

Lemma get_evolves fuel identifier c :
  ends_in evolves c (get fuel identifier c).
Proof.
  revert identifier c. induction fuel as [| fuel IH]; intros identifier c.
  - simpl. destruct (has identifier c); simpl; [| apply evolves_refl].
    destruct (instances c !! _); simpl; [apply evolves_refl |].
    destruct (bindings c !! _); simpl; [done | apply evolves_refl].
  - simpl. destruct (has identifier c); simpl; [| apply evolves_refl].
    destruct (instances c !! _) eqn:Hi; simpl; [apply evolves_refl |].
    destruct (bindings c !! _) as [b |] eqn:Hb; simpl; [| apply evolves_refl].
    pose proof (invoke_with_evolves (get fuel) IH (factory b) empty_object
                  None c) as H1.
    destruct (invoke_with _ _ _ _ _) as [v c1 | e c1 |]; simpl in *; auto.
    destruct (singleton b); [| done].
    by eapply evolves_promote.
Qed.

Lemma construct_evolves fuel constructor parameters c :
  ends_in evolves c (construct fuel constructor parameters c).
Proof. apply construct_with_evolves, get_evolves. Qed.

Lemma invoke_evolves fuel func parameters signature c :
  ends_in evolves c (invoke fuel func parameters signature c).
Proof. apply invoke_with_evolves, get_evolves. Qed.

(** ** Fuel *)

Section Monotone.

(** Two approximations of [this.get], the second at least as defined as
    the first. *)
Variables get1 get2 : string → Container → Outcome Value.
Hypothesis get2_extends : ∀ identifier c,
  get1 identifier c ≠ OutOfFuel → get2 identifier c = get1 identifier c.

Lemma bind_ends {A B} (o : Outcome A) (k : A → Container → Outcome B) :
  bind o k ≠ OutOfFuel → o ≠ OutOfFuel.
Proof. by destruct o. Qed.

Lemma resolveParameter_extends name parameters c :
  resolveParameter get1 name parameters c ≠ OutOfFuel →
  resolveParameter get2 name parameters c
  = resolveParameter get1 name parameters c.
Proof.
  unfold resolveParameter. destruct (js_in _ _); [done |].
  destruct (has name c); [apply get2_extends | done].
Qed.

Lemma resolveParameters_extends names parameters c :
  resolveParameters get1 names parameters c ≠ OutOfFuel →
  resolveParameters get2 names parameters c
  = resolveParameters get1 names parameters c.
Proof.
  revert c. induction names as [| name names IH]; intros c; simpl; [done |].
  intros H. rewrite resolveParameter_extends by (by apply bind_ends in H).
  destruct (resolveParameter get1 name parameters c) as [v c1 | |]; simpl;
    [| done | done].
  simpl in H. rewrite IH by (by apply bind_ends in H). done.
Qed.

Lemma construct_with_extends constructor parameters c :
  construct_with get1 constructor parameters c ≠ OutOfFuel →
  construct_with get2 constructor parameters c
  = construct_with get1 constructor parameters c.
Proof.
  unfold construct_with. intros H.
  by rewrite resolveParameters_extends by (by apply bind_ends in H).
Qed.

Lemma apply_extends func args c :
  apply get1 func args c ≠ OutOfFuel →
  apply get2 func args c = apply get1 func args c.
Proof. destruct func; [done | apply construct_with_extends]. Qed.

Lemma invoke_with_extends func parameters signature c :
  invoke_with get1 func parameters signature c ≠ OutOfFuel →
  invoke_with get2 func parameters signature c
  = invoke_with get1 func parameters signature c.
Proof.
  unfold invoke_with. intros H.
  rewrite resolveParameters_extends by (by apply bind_ends in H).
  destruct (resolveParameters get1 _ parameters c) as [vs c1 | |]; simpl;
    [| done | done].
  by apply apply_extends.
Qed.

End Monotone.

(** More fuel does not change what [get] does once it ends. *)
Lemma get_more_fuel (n m : nat) identifier c :
  (n ≤ m)%nat → get n identifier c ≠ OutOfFuel →
  get m identifier c = get n identifier c.
Proof.
  revert m identifier c. induction n as [| n IH]; intros m identifier c Hnm.
  - destruct m; [done |]. simpl.
    destruct (has identifier c); simpl; [| done].
    destruct (instances c !! _); [done |].
    by destruct (bindings c !! _).
  - destruct m as [| m]; [lia |]. simpl.
    destruct (has identifier c); simpl; [| done].
    destruct (instances c !! _); [done |].
    destruct (bindings c !! _) as [b |]; [| done].
    intros H.
    rewrite (invoke_with_extends (get n) (get m)); [done | |].
    + intros id c1. apply IH. lia.
    + by apply bind_ends in H.
Qed.

Lemma construct_more_fuel (n m : nat) constructor parameters c :
  (n ≤ m)%nat → construct n constructor parameters c ≠ OutOfFuel →
  construct m constructor parameters c = construct n constructor parameters c.
Proof.
  intros Hnm. apply construct_with_extends.
  intros id c1. by apply get_more_fuel.
Qed.

Lemma invoke_more_fuel (n m : nat) func parameters signature c :
  (n ≤ m)%nat → invoke n func parameters signature c ≠ OutOfFuel →
  invoke m func parameters signature c = invoke n func parameters signature c.
Proof.
  intros Hnm. apply invoke_with_extends.
  intros id c1. by apply get_more_fuel.
Qed.

Lemma resolveParameters_nothing_bound get_rec names parameters c :
  (∀ name, name ∈ names →
           js_in name parameters = true ∨ has name c = false) →
  resolveParameters get_rec names parameters c
  = Ret (js_get parameters <$> names) c.
Proof.
  induction names as [| name names IH]; intros H; simpl; [done |].
  assert (resolveParameter get_rec name parameters c
          = Ret (js_get parameters name) c) as ->.
  { unfold resolveParameter.
    destruct (js_in name parameters) eqn:Hjs; [done |].
    destruct (H name) as [? | ->]; [apply elem_of_cons; by left | congruence |].
    unfold js_in in Hjs. apply orb_false_iff in Hjs as [Hown Hinh].
    apply map_has_false in Hown. unfold js_get. by rewrite Hown, Hinh. }
  simpl. rewrite IH; [done |].
  intros name' Hin. apply H. apply elem_of_cons; by right.
Qed.

(** When the factory of a pending [i] has nothing to resolve from the
    container, [get(i)] ends with one unit of fuel: it returns, unless user
    code throws. *)
Lemma get_ends_without_dependencies n i b c :
  pending i b c → resolveIdentifier i c = i →
  (∀ name, name ∈ factory_names (factory b) →
           js_in name empty_object = true ∨ has name c = false) →
  get (S n) i c ≠ OutOfFuel.
Proof.
  intros [Hb Hi] Hr Hnames.
  assert (has i c = true) as Hhas.
  { apply has_true. left. by eexists. }
  simpl. rewrite Hhas, Hr, Hi, Hb. simpl. unfold invoke_with.
  destruct (factory b) as [f | constructor] eqn:Hf;
    cbn [callable_text factory_names apply] in *.
  - rewrite resolveParameters_nothing_bound by done. simpl.
    by destruct (fn_body f _ _).
  - rewrite resolveParameters_nothing_bound.
    2: { intros name Hin. apply Hnames. apply elem_of_app; by left. }
    simpl. unfold construct_with.
    rewrite resolveParameters_nothing_bound.
    2: { intros name Hin. apply Hnames. apply elem_of_app; by right. }
    simpl. unfold Reflect_construct. by destruct (cls_body _ _ _).
Qed.

(** ** Identifiers that were never registered *)

Lemma state_after_evolves {A} (o : Outcome A) c c' :
  ends_in evolves c o → state_after o = Some c' → evolves c c'.
Proof. destruct o; simpl; intros H E; by simplify_eq. Qed.

(** The container after [get], [construct] or [invoke] has evolved from the
    one before. *)
Ltac evolved :=
  eapply state_after_evolves; [| eassumption];
  first [apply get_evolves | apply construct_evolves | apply invoke_evolves].

Lemma evolves_unregistered i c c' :
  evolves c c' → has i c = false → has i c' = false.
Proof.
  intros [A I B F H P E]. rewrite !has_false. intros (Hb & Hi & Ha).
  repeat split.
  - destruct (bindings c' !! i) eqn:E'; [| done]. apply B in E'. congruence.
  - by apply F.
  - congruence.
Qed.

Lemma makeSingleton_unregistered i identifier c c' :
  has i c = false →
  state_after (makeSingleton identifier c) = Some c' →
  has i c' = false.
Proof.
  unfold makeSingleton. intros Hi.
  destruct (has identifier c); simpl; [| by intros [= <-]].
  destruct (map_has _ _); simpl; [by intros [= <-] |].
  destruct (bindings c !! resolveIdentifier identifier c) eqn:Hb; simpl;
    intros [= <-]; [| done].
  apply has_false in Hi as (Hb' & Hi' & Ha'). apply has_false. simpl.
  repeat split; auto.
  rewrite lookup_insert_ne; [done | congruence].
Qed.

Lemma perform_unregistered i fuel op c c' :
  has i c = false → registers i op = false →
  perform fuel op c = Some c' → has i c' = false.
Proof.
  intros Hi Hop Hrun. destruct op; simpl in *.
  - by simplify_eq.
  - eapply evolves_unregistered; [| done].
    evolved.
  - eapply evolves_unregistered; [| done].
    evolved.
  - eapply evolves_unregistered; [| done].
    evolved.
  - apply String.eqb_neq in Hop. simplify_eq.
    apply has_false in Hi as (? & ? & ?). apply has_false; simpl.
    by rewrite lookup_insert_ne.
  - apply String.eqb_neq in Hop. simplify_eq.
    apply has_false in Hi as (? & ? & ?). apply has_false; simpl.
    by rewrite lookup_insert_ne.
  - apply String.eqb_neq in Hop. simplify_eq.
    apply has_false in Hi as (? & ? & ?). apply has_false; simpl.
    by rewrite lookup_insert_ne.
  - by eapply makeSingleton_unregistered.
  - apply String.eqb_neq in Hop. unfold alias in Hrun.
    destruct (alias_target _ _ _); simpl in Hrun; simplify_eq.
    apply has_false in Hi as (? & ? & ?). apply has_false; simpl.
    by rewrite lookup_insert_ne.
Qed.

Lemma run_unregistered i fuel ops c c' :
  has i c = false →
  forallb (fun op => negb (registers i op)) ops = true →
  run fuel ops c = Some c' → has i c' = false.
Proof.
  revert c. induction ops as [| op ops IH]; intros c Hi Hops Hrun; simpl in *.
  - by simplify_eq.
  - apply andb_true_iff in Hops as [Hop Hops]. apply negb_true_iff in Hop.
    destruct (perform fuel op c) as [c1 |] eqn:E; [| done].
    eapply IH; [| done | done]. by eapply perform_unregistered.
Qed.

(** C1. An identifier [i] that no operation since [new Container()] has
    registered (no [bindInstance], [bindConstructor] or [bindFactory] of
    [i], no [alias] with [i] as the alias) is not known to the container:
    [has(i)] is false, and [get(i)] and [makeSingleton(i)] both throw
    [Error("Unknown identifier: i")], whatever the fuel, and leave the
    container as it was. *)
Theorem unregistered_identifier_is_unknown (i : string)
    (ops : list Operation) (fuel : nat) (c : Container) :
  forallb (fun op => negb (registers i op)) ops = true →
  run fuel ops new_Container = Some c →
  has i c = false
  ∧ (∀ n, get n i c = Throw (UnknownIdentifier i) c)
  ∧ makeSingleton i c = Throw (UnknownIdentifier i) c.
Proof.
  intros Hops Hrun.
  assert (has i c = false) as Hi.
  { eapply run_unregistered; [| done | done]. done. }
  split; [done |]. split.
  - intros [| n]; simpl; by rewrite Hi.
  - unfold makeSingleton. by rewrite Hi.
Qed.

(** ** Instances *)

Lemma resolveIdentifier_alias identifier t c :
  aliases c !! identifier = Some t → t ≠ EmptyString →
  resolveIdentifier identifier c = t.
Proof. unfold resolveIdentifier. intros -> Ht. by destruct t. Qed.

Lemma resolveIdentifier_not_alias identifier c :
  aliases c !! identifier = None → resolveIdentifier identifier c = identifier.
Proof. unfold resolveIdentifier. by intros ->. Qed.

Lemma get_instance i v c :
  holds_instance i v c → ∀ n, get n i c = Ret v c.
Proof.
  intros [Hi Hr] n.
  assert (has i c = true) as Hh.
  { apply has_true. right; left. by eexists. }
  destruct n; simpl; by rewrite Hh, Hr, Hi.
Qed.

Lemma resolveIdentifier_aliases i c c' :
  aliases c' !! i = aliases c !! i →
  resolveIdentifier i c' = resolveIdentifier i c.
Proof. unfold resolveIdentifier. by intros ->. Qed.

Lemma evolves_holds_instance i v c c' :
  evolves c c' → holds_instance i v c → holds_instance i v c'.
Proof.
  intros Hev [Hi Hr]. split.
  - by apply (ev_instances _ _ Hev).
  - rewrite <- Hr at 2. apply resolveIdentifier_aliases.
    by rewrite (ev_aliases _ _ Hev).
Qed.

Lemma perform_holds_instance i v fuel op c c' :
  holds_instance i v c → rebinds i op = false →
  perform fuel op c = Some c' → holds_instance i v c'.
Proof.
  intros Hc Hop Hrun. destruct op; simpl in *.
  - by simplify_eq.
  - eapply evolves_holds_instance; [| done].
    evolved.
  - eapply evolves_holds_instance; [| done].
    evolved.
  - eapply evolves_holds_instance; [| done].
    evolved.
  - apply String.eqb_neq in Hop. simplify_eq. destruct Hc as [Hi Hr].
    split; simpl; [by rewrite lookup_insert_ne | done].
  - by simplify_eq.
  - by simplify_eq.
  - unfold makeSingleton in Hrun.
    destruct (has identifier c); simpl in Hrun; [| by simplify_eq].
    destruct (map_has _ _); simpl in Hrun; [by simplify_eq |].
    destruct (bindings c !! _); simpl in Hrun; by simplify_eq.
  - apply String.eqb_neq in Hop. unfold alias in Hrun.
    destruct (alias_target _ _ _); simpl in Hrun; simplify_eq.
    destruct Hc as [Hi Hr]. split; [done |].
    rewrite <- Hr at 2. apply resolveIdentifier_aliases. simpl.
    by rewrite lookup_insert_ne.
Qed.

Lemma run_holds_instance i v fuel ops c c' :
  holds_instance i v c →
  forallb (fun op => negb (rebinds i op)) ops = true →
  run fuel ops c = Some c' → holds_instance i v c'.
Proof.
  revert c. induction ops as [| op ops IH]; intros c Hc Hops Hrun; simpl in *.
  - by simplify_eq.
  - apply andb_true_iff in Hops as [Hop Hops]. apply negb_true_iff in Hop.
    destruct (perform fuel op c) as [c1 |] eqn:E; [| done].
    eapply IH; [| done | done]. by eapply perform_holds_instance.
Qed.

(** C4, as the code has it. After [bindInstance(i, v)] on a container in
    which [i] is not an alias, every later [get(i)] returns [v] itself and
    changes nothing, whatever operations were run in between, as long as
    none of them is [bindInstance(i, _)] or [alias(_, i)]. *)
Theorem bindInstance_then_get (i : string) (v : Value) (c0 : Container)
    (ops : list Operation) (fuel : nat) (c : Container) :
  aliases c0 !! i = None →
  forallb (fun op => negb (rebinds i op)) ops = true →
  run fuel ops (bindInstance i v c0) = Some c →
  ∀ n, get n i c = Ret v c.
Proof.
  intros Ha Hops Hrun. apply get_instance.
  eapply run_holds_instance; [| done | done].
  split; simpl; [by rewrite lookup_insert_eq |].
  by apply resolveIdentifier_not_alias.
Qed.

(** C4 fails as stated: when [i] is already an alias of [x], [get(i)] after
    [bindInstance(i, 1)] returns what [x] holds. *)
Lemma bindInstance_shadowed_by_alias :
  ∃ c0 : Container,
    run 1 [BindInstance "x" (VNumber 2); Alias "x" "i"] new_Container = Some c0
    ∧ get 1 "i" (bindInstance "i" (VNumber 1) c0)
      = Ret (VNumber 2) (bindInstance "i" (VNumber 1) c0)
    ∧ VNumber 2 ≠ VNumber 1.
Proof.
  eexists. split; [reflexivity |]. split; [reflexivity | discriminate].
Qed.

Lemma bindInstance_then_get_witness :
  get 0 "name"
    (bindFactory "name"
       {| fn_id := 1; fn_text := "() => 1";
          fn_body := fun _ _ => Returns (VNumber 1) |} false
       (bindInstance "name" (VString "value") new_Container))
  = Ret (VString "value")
      (bindFactory "name"
         {| fn_id := 1; fn_text := "() => 1";
            fn_body := fun _ _ => Returns (VNumber 1) |} false
         (bindInstance "name" (VString "value") new_Container)).
Proof.
  apply (bindInstance_then_get "name" (VString "value") new_Container
           [Get "name";
            BindFactory "name"
              {| fn_id := 1; fn_text := "() => 1";
                 fn_body := fun _ _ => Returns (VNumber 1) |} false] 1).
  - reflexivity.
  - reflexivity.
  - reflexivity.
Defined.

(** ** Aliases *)

Lemma alias_target_direct fuel a identifier :
  a !! default identifier (a !! identifier) = None →
  alias_target (S fuel) a identifier = Some (default identifier (a !! identifier)).
Proof.
  intros H. simpl. destruct (a !! identifier) as [t |] eqn:E; simpl in *.
  - destruct fuel; simpl; by rewrite H.
  - done.
Qed.

Lemma alias_direct fuel identifier al c :
  aliases c !! direct_target identifier c = None →
  alias (S fuel) identifier al c
  = Ret tt (set_aliases (<[al := direct_target identifier c]> (aliases c)) c).
Proof.
  intros H. unfold alias, direct_target in *.
  by rewrite alias_target_direct.
Qed.

Lemma flat_direct_target identifier c :
  flat (aliases c) → aliases c !! direct_target identifier c = None.
Proof.
  intros Hflat. unfold direct_target.
  destruct (aliases c !! identifier) as [t |] eqn:E; simpl; eauto.
Qed.

Lemma get_same_target n x y c :
  has x c = true → has y c = true →
  resolveIdentifier x c = resolveIdentifier y c →
  get n x c = get n y c.
Proof. intros Hx Hy Hr. destruct n; simpl; by rewrite Hx, Hy, Hr. Qed.

(** C5, as the code has it. Let [t] be where one step along the aliases
    leads from [a]. If [t] is not itself an alias, is not [b] and is not
    the empty string, then [alias(a, b)] followed by [alias(b, c)] both
    return, [has(c)] is true, [c] and [a] resolve to the same identifier
    [t], and [get(c)] does exactly what [get(a)] does whenever [has(a)]. *)
Theorem alias_of_alias (a b c : string) (st : Container) (fuel : nat) :
  let t := direct_target a st in
  aliases st !! t = None → t ≠ b → t ≠ EmptyString →
  ∃ st1 st2,
    alias (S fuel) a b st = Ret tt st1
    ∧ alias (S fuel) b c st1 = Ret tt st2
    ∧ has c st2 = true
    ∧ resolveIdentifier c st2 = t
    ∧ resolveIdentifier a st2 = t
    ∧ (has a st2 = true → ∀ n, get n c st2 = get n a st2).
Proof.
  intros t Ht Hb He.
  set (st1 := set_aliases (<[b := t]> (aliases st)) st).
  assert (direct_target b st1 = t) as Hd.
  { unfold direct_target, st1. simpl. by rewrite lookup_insert_eq. }
  set (st2 := set_aliases (<[c := t]> (aliases st1)) st1).
  assert (has c st2 = true) as Hc.
  { apply has_true. right; right. simpl. rewrite lookup_insert_eq. by eexists. }
  assert (resolveIdentifier c st2 = t) as Hrc.
  { apply resolveIdentifier_alias; [| done]. simpl. by rewrite lookup_insert_eq. }
  assert (resolveIdentifier a st2 = t) as Hra.
  { destruct (decide (c = a)) as [-> | Hca]; [done |].
    destruct (decide (b = a)) as [-> | Hba].
    { apply resolveIdentifier_alias; [| done]. simpl.
      by rewrite lookup_insert_ne, lookup_insert_eq. }
    destruct (aliases st !! a) as [t' |] eqn:E.
    - assert (t = t') as <- by (unfold t, direct_target; by rewrite E).
      apply resolveIdentifier_alias; [| done]. simpl.
      by rewrite !lookup_insert_ne.
    - assert (t = a) as -> by (unfold t, direct_target; by rewrite E).
      apply resolveIdentifier_not_alias. simpl.
      by rewrite !lookup_insert_ne. }
  exists st1, st2. split; [by apply alias_direct |]. split.
  - unfold st2. rewrite <- Hd. apply alias_direct. rewrite Hd. simpl.
    by rewrite lookup_insert_ne.
  - repeat split; auto. intros Ha n. apply get_same_target; congruence.
Qed.

(** C5 fails as stated when the alias chain of [a] has two steps: with
    [m -> r -> z], [alias(m, b)] and [alias(b, c)] make [c] an alias of
    [z], while [get(m)] reads [r]. *)
Lemma alias_of_alias_two_steps :
  ∃ st : Container,
    run 2 [BindInstance "r" (VNumber 1); BindInstance "z" (VNumber 2);
           Alias "r" "m"; Alias "z" "r"; Alias "m" "b"; Alias "b" "c"]
      new_Container = Some st
    ∧ get 0 "m" st = Ret (VNumber 1) st
    ∧ get 0 "c" st = Ret (VNumber 2) st.
Proof. eexists. split; [reflexivity |]. split; reflexivity. Qed.

Lemma alias_of_alias_witness :
  ∃ st1 st2,
    alias 1 "name" "alias" (bindInstance "name" (VString "value") new_Container)
    = Ret tt st1
    ∧ alias 1 "alias" "secondAlias" st1 = Ret tt st2
    ∧ has "secondAlias" st2 = true
    ∧ resolveIdentifier "secondAlias" st2 = "name"
    ∧ resolveIdentifier "name" st2 = "name"
    ∧ (has "name" st2 = true →
       ∀ n, get n "secondAlias" st2 = get n "name" st2).
Proof.
  apply (alias_of_alias "name" "alias" "secondAlias"
           (bindInstance "name" (VString "value") new_Container) 0).
  - reflexivity.
  - discriminate.
  - discriminate.
Defined.

Lemma flat_insert al t (a : gmap string string) :
  flat a → a !! t = None → t ≠ al → (∀ k, a !! k ≠ Some al) →
  flat (<[al := t]> a).
Proof.
  intros Hflat Ht Hne Hal k t' Hk.
  destruct (decide (al = k)) as [-> | Hk'].
  - rewrite lookup_insert_eq in Hk. simplify_eq.
    by rewrite lookup_insert_ne.
  - rewrite lookup_insert_ne in Hk by done.
    destruct (decide (al = t')) as [-> | Ht'].
    + by apply Hal in Hk.
    + rewrite lookup_insert_ne by done. eauto.
Qed.

Lemma perform_aliases fuel op c c' :
  (∀ identifier al, op ≠ Alias identifier al) →
  perform fuel op c = Some c' → aliases c' = aliases c.
Proof.
  intros Hop Hrun. destruct op; simpl in *; try by simplify_eq.
  - eapply ev_aliases. evolved.
  - eapply ev_aliases. evolved.
  - eapply ev_aliases. evolved.
  - unfold makeSingleton in Hrun.
    destruct (has identifier c); simpl in Hrun; [| by simplify_eq].
    destruct (map_has _ _); simpl in Hrun; [by simplify_eq |].
    destruct (bindings c !! _); simpl in Hrun; by simplify_eq.
  - exfalso. by eapply Hop.
Qed.

Lemma alias_target_end fuel a identifier t :
  alias_target fuel a identifier = Some t →
  rtc (alias_step a) identifier t ∧ a !! t = None.
Proof.
  revert identifier. induction fuel as [| fuel IH]; intros identifier; simpl;
    destruct (a !! identifier) as [next |] eqn:E; try done.
  - intros [= <-]. split; [apply rtc_refl | done].
  - intros [Hrtc Hend]%IH. split; [| done]. by eapply rtc_l.
  - intros [= <-]. split; [apply rtc_refl | done].
Qed.

(** C8, as the code has it. Whenever [alias(identifier, al)] returns, it
    has stored [al -> t] for the identifier [t] at the end of the alias
    chain of [identifier], and [t] is not an alias before the write. On a
    container whose alias map is flat the call does return, [t] is the
    target of [identifier] when it is an alias and [identifier] itself
    otherwise, and the map stays flat provided [t] is not [al] and [al] is
    not already the target of an alias. Every other public operation
    leaves the alias map as it is. *)
Theorem alias_flattens_at_write (fuel : nat) (identifier al : string)
    (st : Container) :
  (∀ st', alias fuel identifier al st = Ret tt st' →
     ∃ t, aliases st' = <[al := t]> (aliases st)
          ∧ rtc (alias_step (aliases st)) identifier t
          ∧ aliases st !! t = None)
  ∧ (flat (aliases st) →
     let t := direct_target identifier st in
     alias (S fuel) identifier al st
     = Ret tt (set_aliases (<[al := t]> (aliases st)) st)
     ∧ (t ≠ al → (∀ k, aliases st !! k ≠ Some al) →
        flat (<[al := t]> (aliases st))))
  ∧ (∀ op st', (∀ identifier' al', op ≠ Alias identifier' al') →
       perform fuel op st = Some st' → aliases st' = aliases st).
Proof.
  split; [| split].
  - intros st'. unfold alias.
    destruct (alias_target fuel (aliases st) identifier) as [t |] eqn:E;
      [| done].
    intros [= <-]. exists t. split; [done |]. by apply alias_target_end in E.
  - intros Hflat t.
    pose proof (flat_direct_target identifier st Hflat) as Ht.
    split; [by apply alias_direct |].
    intros Hne Hal. by apply flat_insert.
  - intros op st'. apply perform_aliases.
Qed.

(** C8 fails as stated: an identifier that is the target of an alias can
    be made an alias afterwards. *)
Lemma alias_chain_reachable :
  ∃ st : Container,
    run 0 [Alias "a" "b"; Alias "c" "a"] new_Container = Some st
    ∧ aliases st !! "b" = Some "a"
    ∧ aliases st !! "a" = Some "c"
    ∧ ¬ flat (aliases st).
Proof.
  eexists. split; [reflexivity |]. split; [reflexivity |].
  split; [reflexivity |].
  intros Hflat. specialize (Hflat "b" "a" eq_refl). discriminate Hflat.
Qed.

Lemma alias_flattens_at_write_witness :
  let st := set_aliases {["alias" := "name"]} new_Container in
  let t := direct_target "alias" st in
  flat (aliases st)
  ∧ alias 1 "alias" "secondAlias" st
    = Ret tt (set_aliases (<["secondAlias" := t]> (aliases st)) st)
  ∧ (t ≠ "secondAlias" → (∀ k, aliases st !! k ≠ Some "secondAlias") →
     flat (<["secondAlias" := t]> (aliases st))).
Proof.
  intros st t.
  assert (flat (aliases st)) as Hflat.
  { intros k t' Hk. simpl in Hk.
    apply lookup_singleton_Some in Hk as [<- <-]. reflexivity. }
  split; [exact Hflat |].
  exact (proj1 (proj2 (alias_flattens_at_write 0 "alias" "secondAlias" st))
           Hflat).
Defined.

Lemma unregistered_identifier_is_unknown_witness :
  has "name" (bindInstance "other" (VNumber 1) new_Container) = false
  ∧ (∀ n, get n "name" (bindInstance "other" (VNumber 1) new_Container)
          = Throw (UnknownIdentifier "name")
              (bindInstance "other" (VNumber 1) new_Container))
  ∧ makeSingleton "name" (bindInstance "other" (VNumber 1) new_Container)
    = Throw (UnknownIdentifier "name")
        (bindInstance "other" (VNumber 1) new_Container).
Proof.
  apply (unregistered_identifier_is_unknown "name"
           [BindInstance "other" (VNumber 1); Get "other"; Has "name"] 1).
  - reflexivity.
  - reflexivity.
Defined.

(** ** The parameter resolver *)

Lemma resolveParameter_own get_rec name v parameters c :
  own parameters !! name = Some v →
  resolveParameter get_rec name parameters c = Ret v c.
Proof.
  intros H. unfold resolveParameter, js_in, js_get, map_has. by rewrite H.
Qed.

Lemma resolveParameter_bound get_rec name parameters c :
  js_in name parameters = false → has name c = true →
  resolveParameter get_rec name parameters c = get_rec name c.
Proof. intros H1 H2. unfold resolveParameter. by rewrite H1, H2. Qed.

Lemma resolveParameter_unbound get_rec name parameters c :
  js_in name parameters = false → has name c = false →
  resolveParameter get_rec name parameters c = Ret VUndefined c.
Proof. intros H1 H2. unfold resolveParameter. by rewrite H1, H2. Qed.

(** With a [parameters] object that has no prototype, the three cases of
    the resolver are: an own key wins, else the container, else
    [undefined]. *)
Lemma resolveParameter_without_prototype get_rec name props c :
  let parameters := {| own := props; inherits_Object_prototype := false |} in
  resolveParameter get_rec name parameters c
  = match props !! name with
    | Some v => Ret v c
    | None => if has name c then get_rec name c else Ret VUndefined c
    end.
Proof.
  simpl. unfold resolveParameter, js_in, js_get, inherited, map_has. simpl.
  by destruct (props !! name).
Qed.

(** C3 at a name that [Object.prototype] has: [parameters] is [{}], the
    container holds [1] under ["constructor"], and the resolver returns
    neither [get("constructor")] nor [undefined] but the member
    [constructor] that [{}] inherits; [invoke] hands it to the function. *)
Theorem resolveParameter_inherited_name :
  let c := bindInstance "constructor" (VNumber 1) new_Container in
  own empty_object !! "constructor" = None
  ∧ has "constructor" c = true
  ∧ get 0 "constructor" c = Ret (VNumber 1) c
  ∧ resolveParameter (get 0) "constructor" empty_object c
    = Ret (VObjectPrototype "constructor") c
  ∧ invoke 0 returns_its_argument empty_object None c
    = Ret (VObjectPrototype "constructor")
        (log (Applied 1 [VObjectPrototype "constructor"]) c).
Proof. repeat split; reflexivity. Qed.

(** ** The first explicit constructor *)

Lemma explicit_from_first d chain cls :
  explicit_from d chain = Some cls →
  ∃ before,
    d :: chain = before ++ cls_own cls :: cls_ancestors cls
    ∧ forallb (fun d' => negb (declares_constructor d')) before = true
    ∧ declares_constructor (cls_own cls) = true.
Proof.
  revert d. induction chain as [| p chain IH]; intros d; simpl;
    fold (declares_constructor d);
    destruct (declares_constructor d) eqn:E; intros H; simplify_eq.
  - by exists [].
  - by exists [].
  - apply IH in H as (before & Heq & Hb & Hc).
    exists (d :: before). simpl. rewrite E, Heq. by simpl.
Qed.

Lemma explicit_from_none d chain :
  explicit_from d chain = None →
  forallb (fun d' => negb (declares_constructor d')) (d :: chain) = true.
Proof.
  revert d. induction chain as [| p chain IH]; intros d; simpl;
    fold (declares_constructor d);
    destruct (declares_constructor d) eqn:E; intros H; simplify_eq.
  - done.
  - simpl. by apply IH in H.
Qed.

(** C6 at a class with a method and no constructor anywhere on its chain:
    no class passes the test of [firstExplicitConstructor], which returns
    the class itself; the parameter list extracted from its text is the
    one of the method, so [construct] resolves [x] from the container and
    passes it to the constructor. *)
Theorem construct_class_with_method :
  let c := bindInstance "x" (VNumber 1) new_Container in
  declares_constructor (cls_own class_with_method) = false
  ∧ firstExplicitConstructor class_with_method = class_with_method
  ∧ extractParameterNames
      (cls_text (cls_own (firstExplicitConstructor class_with_method)))
    = ["x"]
  ∧ construct 0 class_with_method empty_object c
    = Reflect_construct class_with_method [VNumber 1] c.
Proof. repeat split; reflexivity. Qed.

(** ** Texts that no pattern matches *)

Lemma split_comma_from_not_nil cur l : Rx.split_comma_from cur l ≠ [].
Proof.
  revert cur. induction l as [| a l IH]; intros cur; simpl; [done |].
  destruct (Ascii.eqb a ","); [done | apply IH].
Qed.

Lemma extractParameterNames_nil text :
  extractParameterNames text = [] ↔ unparseable text.
Proof.
  unfold extractParameterNames, unparseable.
  destruct (Rx.exec _ _ _); split; intros H; try done.
  by apply split_comma_from_not_nil in H.
Qed.

(** C9. [extractParameterNames] is a total function of the text. On a text
    that no declaration form matches it returns the empty list, and the
    callable is then invoked, or the class constructed, with no arguments
    at all: nothing is resolved from the container. *)
Theorem extraction_failure_is_silent (text : string) :
  unparseable text →
  extractParameterNames text = []
  ∧ (∀ fuel func parameters signature c,
       fn_text (default func signature) = text →
       invoke fuel func parameters signature c
       = apply (get fuel) (UserFunction func) [] c)
  ∧ (∀ fuel constructor parameters c,
       cls_text (cls_own (firstExplicitConstructor constructor)) = text →
       construct fuel constructor parameters c
       = Reflect_construct constructor [] c).
Proof.
  intros H. apply extractParameterNames_nil in H. split; [done |]. split.
  - intros fuel func parameters signature c <-.
    unfold invoke, invoke_with. destruct signature; simpl in *; by rewrite H.
  - intros fuel constructor parameters c <-.
    unfold construct, construct_with. by rewrite H.
Qed.

Lemma extraction_failure_is_silent_witness :
  extractParameterNames "class A {}" = []
  ∧ (∀ fuel func parameters signature c,
       fn_text (default func signature) = "class A {}" →
       invoke fuel func parameters signature c
       = apply (get fuel) (UserFunction func) [] c)
  ∧ (∀ fuel constructor parameters c,
       cls_text (cls_own (firstExplicitConstructor constructor))
       = "class A {}" →
       construct fuel constructor parameters c
       = Reflect_construct constructor [] c).
Proof.
  apply (extraction_failure_is_silent "class A {}"). reflexivity.
Defined.

(** ** Aliases of identifiers that are not registered *)

(** An alias whose target is not the empty string and is registered
    neither as a binding nor as an instance: [has] is true and [get]
    throws a [TypeError], for want of a binding to destructure. *)
Lemma get_dangling_alias a t c n :
  aliases c !! a = Some t → t ≠ EmptyString →
  bindings c !! t = None → instances c !! t = None →
  has a c = true ∧ get n a c = Throw TypeError c.
Proof.
  intros Ha Ht Hb Hi.
  assert (has a c = true) as Hh.
  { apply has_true. right; right. by eexists. }
  split; [done |].
  pose proof (resolveIdentifier_alias a t c Ha Ht) as Hr.
  destruct n; simpl; by rewrite Hh, Hr, Hi, Hb.
Qed.

(** C10 at the empty string as the target: [a] is an alias of the
    identifier [""], which is registered nowhere, yet [get(a)] returns the
    instance held under [a] itself, because [resolveIdentifier] takes the
    empty target for no alias at all. *)
Theorem get_alias_of_empty_identifier :
  ∃ c : Container,
    run 0 [BindInstance "a" (VNumber 1); Alias EmptyString "a"] new_Container
    = Some c
    ∧ aliases c !! "a" = Some EmptyString
    ∧ bindings c !! EmptyString = None
    ∧ instances c !! EmptyString = None
    ∧ has "a" c = true
    ∧ resolveIdentifier "a" c = "a"
    ∧ get 0 "a" c = Ret (VNumber 1) c.
Proof. eexists. repeat split; reflexivity. Qed.

(** ** Dependency cycles never return *)

Lemma bind_Ret {A B} (o : Outcome A) (k : A → Container → Outcome B) b c' :
  bind o k = Ret b c' → ∃ a c1, o = Ret a c1 ∧ k a c1 = Ret b c'.
Proof. destruct o; simpl; intros H; try done. eauto. Qed.

(** When the resolution of a list of names returns, each name was resolved,
    and returned, in a state that satisfies whatever the resolutions
    preserve. *)
Lemma resolveParameters_returns (Inv : Container → Prop) get_rec names
    parameters c vs c' :
  (∀ name c1 v c2, name ∈ names → Inv c1 →
     resolveParameter get_rec name parameters c1 = Ret v c2 → Inv c2) →
  Inv c →
  resolveParameters get_rec names parameters c = Ret vs c' →
  Inv c'
  ∧ ∀ name, name ∈ names →
      ∃ c1 v c2, Inv c1
                 ∧ resolveParameter get_rec name parameters c1 = Ret v c2.
Proof.
  revert c vs. induction names as [| n names IH]; intros c vs Hstep Hc Hret;
    simpl in Hret.
  - simplify_eq. split; [done |]. intros name Hin. by apply elem_of_nil in Hin.
  - apply bind_Ret in Hret as (v & c1 & H1 & Hret).
    apply bind_Ret in Hret as (vs' & c2 & H2 & Hret). simplify_eq.
    assert (Inv c1) as Hc1.
    { eapply Hstep; [| done | done]. apply elem_of_cons; by left. }
    apply IH in H2 as [Hc2 Hall]; [| | done].
    + split; [done |]. intros name Hin. apply elem_of_cons in Hin as [-> | Hin].
      * eauto.
      * auto.
    + intros name c3 v3 c4 Hin. apply Hstep. apply elem_of_cons; by right.
Qed.

Lemma used_once_Reflect_construct constructor args c v c' :
  Reflect_construct constructor args c = Ret v c' →
  used_once (ConstructArrow constructor) c c'.
Proof.
  unfold Reflect_construct. destruct (cls_body _ _ _); [| | done];
    simpl; intros [= <- <-]; repeat split; simpl;
    (eexists; split; [| done]); simpl; apply Nat.eqb_refl.
Qed.

(** When the invocation of a binding's factory returns, every name of the
    factory was resolved, and then the factory was used once. *)
Lemma invoke_factory_returns (Inv : Container → Prop) get_rec f c v c' :
  (∀ name c1 v c2, name ∈ factory_names f → Inv c1 →
     resolveParameter get_rec name empty_object c1 = Ret v c2 → Inv c2) →
  Inv c →
  invoke_with get_rec f empty_object None c = Ret v c' →
  (∃ c1, Inv c1 ∧ used_once f c1 c')
  ∧ ∀ name, name ∈ factory_names f →
      ∃ c1 v c2, Inv c1
                 ∧ resolveParameter get_rec name empty_object c1 = Ret v c2.
Proof.
  intros Hstep Hc Hret. unfold invoke_with in Hret.
  apply bind_Ret in Hret as (vs & c1 & H1 & Hret).
  destruct f as [f | constructor];
    cbn [callable_text factory_names apply] in *.
  - apply resolveParameters_returns with (Inv := Inv) in H1 as [Hc1 Hall];
      [| done | done].
    split; [| done]. exists c1. split; [done |].
    destruct (fn_body f (events c1) vs); simpl in Hret; simplify_eq;
      repeat split; simpl;
      eexists; (split; [| done]); simpl; apply Nat.eqb_refl.
  - apply resolveParameters_returns with (Inv := Inv) in H1 as [Hc1 Hall1].
    2: { intros name c2 v2 c3 Hin. apply Hstep. apply elem_of_app; by left. }
    2: done.
    unfold construct_with in Hret.
    apply bind_Ret in Hret as (vs' & c2 & H2 & Hret).
    apply resolveParameters_returns with (Inv := Inv) in H2 as [Hc2 Hall2].
    2: { intros name c3 v3 c4 Hin. apply Hstep. apply elem_of_app; by right. }
    2: done.
    split.
    + exists c2. split; [done |]. by eapply used_once_Reflect_construct.
    + intros name Hin. apply elem_of_app in Hin as [Hin | Hin]; auto.
Qed.

Lemma has_promote k identifier value c :
  has k c = true → has k (createSingletonFromBinding identifier value c) = true.
Proof.
  rewrite !has_true. simpl. intros H.
  destruct (decide (identifier = k)) as [-> | Hne].
  - right; left. rewrite lookup_insert_eq. by eexists.
  - by rewrite lookup_delete_ne, lookup_insert_ne.
Qed.

Lemma pending_stable r b c c' :
  bindings c' !! r = bindings c !! r → instances c' !! r = instances c !! r →
  pending r b c → pending r b c'.
Proof. unfold pending. intros -> ->. done. Qed.

Lemma leads_to_stable c c' b r :
  aliases c' = aliases c → (∀ k, has k c = true → has k c' = true) →
  leads_to c b r → leads_to c' b r.
Proof.
  intros Ha Hh (name & Hin & Hjs & Hhas & Hres). exists name.
  repeat split; auto. rewrite <- Hres. apply resolveIdentifier_aliases.
  by rewrite Ha.
Qed.

Lemma stuck_stable ids c c' :
  aliases c' = aliases c → (∀ k, has k c = true → has k c' = true) →
  (∀ r, r ∈ ids → bindings c' !! r = bindings c !! r
                 ∧ instances c' !! r = instances c !! r) →
  stuck ids c → stuck ids c'.
Proof.
  intros Ha Hh Hsame Hstuck r Hr.
  destruct (Hstuck r Hr) as (b & r' & Hp & Hl & Hr').
  destruct (Hsame r Hr) as [Hb Hi].
  exists b, r'. split; [by eapply pending_stable |].
  split; [by eapply leads_to_stable | done].
Qed.

Lemma stuck_used_once ids f c c' : used_once f c c' → stuck ids c → stuck ids c'.
Proof.
  intros (Hb & Hi & Ha & _). apply stuck_stable; [done | |].
  - intros k. unfold has. by rewrite Hb, Hi, Ha.
  - intros r _. by rewrite Hb, Hi.
Qed.

Lemma stuck_promote ids identifier value c :
  identifier ∉ ids → stuck ids c →
  stuck ids (createSingletonFromBinding identifier value c).
Proof.
  intros Hnot. apply stuck_stable; [done | |].
  - intros k. apply has_promote.
  - intros r Hr. assert (identifier ≠ r) by (intros ->; done). simpl.
    by rewrite lookup_delete_ne, lookup_insert_ne.
Qed.

(** With identifiers stuck on each other, [get] of one of them never
    returns, whatever the fuel; and what does return leaves them stuck. *)
Lemma stuck_get n ids c :
  stuck ids c →
  (∀ id v c', has id c = true → resolveIdentifier id c ∈ ids →
              get n id c ≠ Ret v c')
  ∧ (∀ id v c', get n id c = Ret v c' → stuck ids c').
Proof.
  revert ids c. induction n as [| n IH]; intros ids c Hstuck.
  - split.
    + intros id v c' Hhas Hin. simpl. rewrite Hhas. simpl.
      destruct (Hstuck _ Hin) as (b & r' & [Hb Hi] & _). by rewrite Hi, Hb.
    + intros id v c'. simpl. destruct (has id c); simpl; [| done].
      destruct (instances c !! _); [by intros [= <- <-] |].
      by destruct (bindings c !! _).
  - assert (∀ name c1 v c2, stuck ids c1 →
              resolveParameter (get n) name empty_object c1 = Ret v c2 →
              stuck ids c2) as Hparam.
    { intros name c1 v c2 H1. unfold resolveParameter.
      destruct (js_in _ _); [by intros [= <- <-] |].
      destruct (has name c1); [| by intros [= <- <-]].
      intros Hget. by eapply (proj2 (IH ids c1 H1)). }
    assert (∀ id v c', has id c = true → resolveIdentifier id c ∈ ids →
                       get (S n) id c ≠ Ret v c') as Hpart1.
    { intros id v c' Hhas Hin Hget. simpl in Hget. rewrite Hhas in Hget.
      simpl in Hget.
      destruct (Hstuck _ Hin) as (b & r' & [Hb Hi] & Hlead & Hr').
      rewrite Hi, Hb in Hget.
      apply bind_Ret in Hget as (v1 & c1 & Hinv & _).
      apply invoke_factory_returns
        with (Inv := fun c1 => stuck ids c1 ∧ evolves c c1) in Hinv
        as [_ Hall].
      - destruct Hlead as (name & Hname & Hjs & Hhasn & Hres).
        destruct (Hall name Hname) as (c2 & v2 & c3 & [Hs2 He2] & Hr2).
        unfold resolveParameter in Hr2. rewrite Hjs in Hr2.
        rewrite (ev_has _ _ He2 _ Hhasn) in Hr2.
        eapply (proj1 (IH ids c2 Hs2)); [| | exact Hr2].
        + by apply (ev_has _ _ He2).
        + rewrite (resolveIdentifier_aliases name c c2); [congruence |].
          by rewrite (ev_aliases _ _ He2).
      - intros name c2 v2 c3 _ [Hs2 He2] Hr2. split; [by eapply Hparam |].
        eapply evolves_trans; [done |].
        pose proof (resolveParameter_evolves (get n) (get_evolves n) name
                      empty_object c2) as He. by rewrite Hr2 in He.
      - split; [done | apply evolves_refl]. }
    split; [done |].
    intros id v c' Hget. pose proof Hget as Hget0. simpl in Hget.
    destruct (has id c) eqn:Hhas; simpl in Hget; [| done].
    destruct (instances c !! _) eqn:Hi; [by simplify_eq |].
    destruct (bindings c !! _) as [b |] eqn:Hb; [| done].
    apply bind_Ret in Hget as (v1 & c1 & Hinv & Hret).
    apply invoke_factory_returns with (Inv := stuck ids) in Hinv
      as [(c2 & Hs2 & Hused) _]; [| by intros; eapply Hparam | done].
    apply (stuck_used_once _ _ _ _ Hused) in Hs2.
    destruct (singleton b); simplify_eq; [| done].
    apply stuck_promote; [| done].
    intros Hin. by eapply Hpart1.
Qed.

(** ** A factory is used once by the [get] that invokes it *)

Lemma uses_of_app f l e :
  uses_of f (l ++ [e]) = uses_of f l + (if made_by f e then 1 else 0).
Proof.
  unfold uses_of. rewrite List.filter_app, length_app. simpl.
  by destruct (made_by f e).
Qed.

Lemma made_by_same_identity f g e :
  made_by g e = true → made_by f e = same_identity f g.
Proof.
  destruct f, g, e; simpl; try done; intros H%Nat.eqb_eq; by subst.
Qed.

Lemma pending_unique r b b' c : pending r b c → pending r b' c → b = b'.
Proof. intros [H1 _] [H2 _]. congruence. Qed.

Lemma leads_to_names c b b' r :
  factory_names (factory b') = factory_names (factory b) →
  leads_to c b r → leads_to c b' r.
Proof. intros Heq (name & Hin & H). exists name. by rewrite Heq. Qed.

Lemma chain_elem_pending c ids r :
  chain c ids → r ∈ ids → ∃ b, pending r b c.
Proof.
  induction 1 as [r0 b0 Hp | r0 r' ids b0 b' Hc IH Hp Hp' Hl]; intros Hin.
  - apply list_elem_of_singleton in Hin as ->. eauto.
  - apply elem_of_cons in Hin as [-> | Hin]; eauto.
Qed.

Lemma chain_rest_edges c top rest :
  chain c (top :: rest) →
  ∀ x, x ∈ rest → ∃ b r', pending x b c ∧ leads_to c b r' ∧ r' ∈ top :: rest.
Proof.
  remember (top :: rest) as ids eqn:E. intros Hc. revert top rest E.
  induction Hc as [r0 b0 Hp | r0 r' ids b0 b' Hc IH Hp Hp' Hl];
    intros top rest E x Hx; simplify_eq.
  - by apply elem_of_nil in Hx.
  - apply elem_of_cons in Hx as [-> | Hx].
    + exists b', top. split; [done |]. split; [done |].
      apply elem_of_cons; by left.
    + destruct (IH _ _ eq_refl x Hx) as (b & r'' & H1 & H2 & H3).
      exists b, r''. split; [done |]. split; [done |].
      apply elem_of_cons; by right.
Qed.

Lemma chain_stuck c top rest b r :
  chain c (top :: rest) → pending top b c → leads_to c b r →
  r ∈ top :: rest → stuck (top :: rest) c.
Proof.
  intros Hc Hp Hl Hr x Hx. apply elem_of_cons in Hx as [-> | Hx].
  - eauto.
  - by eapply chain_rest_edges.
Qed.

Lemma chain_bottom_edge c ids i bi :
  chain c ids → last ids = Some i → pending i bi c →
  ids = [i] ∨ ∃ r', leads_to c bi r' ∧ r' ∈ ids.
Proof.
  induction 1 as [r0 b0 Hp | r0 r' ids b0 b' Hc IH Hp Hp' Hl];
    intros Hlast Hi.
  - simpl in Hlast. simplify_eq. by left.
  - right. change (last (r' :: ids) = Some i) in Hlast.
    destruct (IH Hlast Hi) as [E | (r'' & H1 & H2)].
    + simplify_eq. rewrite (pending_unique _ _ _ _ Hi Hp').
      exists r0. split; [done |]. apply elem_of_cons; by left.
    + exists r''. split; [done |]. apply elem_of_cons; by right.
Qed.

Lemma chain_stable c c' ids :
  aliases c' = aliases c → (∀ k, has k c = true → has k c' = true) →
  (∀ r, r ∈ ids → bindings c' !! r = bindings c !! r
                   ∧ instances c' !! r = instances c !! r) →
  chain c ids → chain c' ids.
Proof.
  intros Ha Hh Hsame Hc.
  induction Hc as [r0 b0 Hp | r0 r' ids b0 b' Hc IH Hp Hp' Hl].
  - destruct (Hsame r0) as [? ?]; [apply elem_of_cons; by left |].
    eapply chain_bottom. by eapply pending_stable.
  - destruct (Hsame r0) as [? ?]; [apply elem_of_cons; by left |].
    destruct (Hsame r') as [? ?].
    { apply elem_of_cons; right. apply elem_of_cons; by left. }
    eapply chain_push.
    + apply IH. intros r Hr. apply Hsame. apply elem_of_cons; by right.
    + by eapply pending_stable.
    + by eapply pending_stable.
    + by eapply leads_to_stable.
Qed.

Lemma chain_used_once ids f c c' : used_once f c c' → chain c ids → chain c' ids.
Proof.
  intros (Hb & Hi & Ha & _). apply chain_stable; [done | |].
  - intros k. unfold has. by rewrite Hb, Hi, Ha.
  - intros r _. by rewrite Hb, Hi.
Qed.

Lemma chain_promote ids identifier value c :
  identifier ∉ ids → chain c ids →
  chain (createSingletonFromBinding identifier value c) ids.
Proof.
  intros Hnot. apply chain_stable; [done | |].
  - intros k. apply has_promote.
  - intros r Hr. assert (identifier ≠ r) by (intros ->; done). simpl.
    by rewrite lookup_delete_ne, lookup_insert_ne.
Qed.

Lemma chain_pop c r r' ids : chain c (r :: r' :: ids) → chain c (r' :: ids).
Proof. by inversion 1. Qed.

Lemma evolves_pending r b c c' b' :
  evolves c c' → pending r b c → pending r b' c' → b' = b.
Proof.
  intros He [Hb _] [Hb' _]. apply (ev_bindings _ _ He) in Hb'. congruence.
Qed.

Lemma evolves_identified f c c' :
  evolves c c' → identified f c → identified f c'.
Proof. intros He Hid k b Hb. apply (Hid k). by apply (ev_bindings _ _ He). Qed.

(** While [get] resolves the names of the factory of [i] (and, below them,
    those of the factories they lead to), the factory of [i] is not used:
    a resolution that would use it again is a dependency cycle, and does
    not return. *)
Lemma nested_uses n i bi :
  ∀ ids top b c name v c',
    chain c (top :: ids) → last (top :: ids) = Some i →
    pending i bi c → identified (factory bi) c →
    pending top b c → name ∈ factory_names (factory b) →
    resolveParameter (get n) name empty_object c = Ret v c' →
    uses_of (factory bi) (events c') = uses_of (factory bi) (events c)
    ∧ chain c' (top :: ids).
Proof.
  induction n as [| n IH];
    intros ids top b c name v c' Hchain Hlast Hi Hid Htop Hname Hres;
    unfold resolveParameter in Hres;
    (destruct (js_in name empty_object) eqn:Hjs; [by simplify_eq |]);
    (destruct (has name c) eqn:Hhas; [| by simplify_eq]);
    pose proof Hres as Hget; simpl in Hres; rewrite Hhas in Hres;
    simpl in Hres;
    (destruct (instances c !! resolveIdentifier name c) eqn:Hinst;
       [by simplify_eq |]);
    (destruct (bindings c !! resolveIdentifier name c) as [br |] eqn:Hbr;
       [| done]); [done |].
  set (rid := resolveIdentifier name c) in *.
  assert (pending rid br c) as Hrid by done.
  assert (leads_to c b rid) as Hlead by (by exists name).
  destruct (decide (rid ∈ top :: ids)) as [Hin | Hnotin].
  { exfalso. pose proof (chain_stuck _ _ _ _ _ Hchain Htop Hlead Hin) as Hst.
    by eapply (proj1 (stuck_get (S n) _ _ Hst) name v c' Hhas Hin). }
  destruct (same_identity (factory bi) (factory br)) eqn:Hsame.
  { exfalso. pose proof (Hid _ _ Hbr Hsame) as Hnames.
    assert (stuck (rid :: top :: ids) c) as Hst.
    { intros x Hx. apply elem_of_cons in Hx as [-> | Hx];
        [| apply elem_of_cons in Hx as [-> | Hx]].
      - exists br.
        destruct (chain_bottom_edge _ _ _ _ Hchain Hlast Hi)
          as [E | (r' & Hl' & Hr')].
        + simplify_eq. rewrite (pending_unique _ _ _ _ Htop Hi) in Hlead.
          exists rid. split; [done |].
          split; [by eapply leads_to_names |]. apply elem_of_cons; by left.
        + exists r'. split; [done |].
          split; [by eapply leads_to_names |]. apply elem_of_cons; by right.
      - exists b, rid. split; [done |]. split; [done |].
        apply elem_of_cons; by left.
      - destruct (chain_rest_edges _ _ _ Hchain x Hx) as (bx & r' & ? & ? & ?).
        exists bx, r'. split; [done |]. split; [done |].
        apply elem_of_cons; by right. }
    eapply (proj1 (stuck_get (S n) _ _ Hst) name v c' Hhas); [| done].
    apply elem_of_cons; by left. }
  assert (chain c (rid :: top :: ids)) as Hchain' by (by eapply chain_push).
  apply bind_Ret in Hres as (v1 & c1 & Hinv & Hret).
  apply invoke_factory_returns
    with (Inv := fun c1 =>
                   uses_of (factory bi) (events c1)
                   = uses_of (factory bi) (events c)
                   ∧ chain c1 (rid :: top :: ids) ∧ evolves c c1) in Hinv
    as [(c2 & (Hu2 & Hc2 & He2) & Hused) _].
  - pose proof (chain_used_once _ _ _ _ Hused Hc2) as Hc1.
    apply chain_pop in Hc1.
    destruct Hused as (_ & _ & _ & e & Hmade & Hev).
    assert (uses_of (factory bi) (events c1)
            = uses_of (factory bi) (events c)) as Hu1.
    { rewrite Hev, uses_of_app, (made_by_same_identity _ _ _ Hmade), Hsame.
      lia. }
    destruct (singleton br); simplify_eq; [| done].
    split; [done |]. by apply chain_promote.
  - intros name' c2 v2 c3 Hin' (Hu2 & Hc2 & He2) Hr2.
    assert (evolves c c3) as He3.
    { eapply evolves_trans; [done |].
      pose proof (resolveParameter_evolves (get n) (get_evolves n) name'
                    empty_object c2) as He. by rewrite Hr2 in He. }
    destruct (chain_elem_pending _ _ rid Hc2) as [br' Hrid2];
      [apply elem_of_cons; by left |].
    rewrite (evolves_pending _ _ _ _ _ He2 Hrid Hrid2) in Hrid2.
    destruct (chain_elem_pending _ _ i Hc2) as [bi' Hi2].
    { apply elem_of_cons; right. by apply last_Some_elem_of. }
    rewrite (evolves_pending _ _ _ _ _ He2 Hi Hi2) in Hi2.
    destruct (IH (top :: ids) rid br c2 name' v2 c3) as [Hu3 Hc3]; auto.
    + by eapply evolves_identified.
    + split; [congruence |]. done.
  - split; [done |]. split; [done | apply evolves_refl].
Qed.

(** A [get] that finds [i] pending, and returns, has used the factory of
    [i] exactly once. *)
Lemma get_uses_factory_once fuel i b c v c' :
  pending i b c → resolveIdentifier i c = i → identified (factory b) c →
  get fuel i c = Ret v c' →
  uses_of (factory b) (events c') = S (uses_of (factory b) (events c)).
Proof.
  intros Hp Hr Hid Hget. pose proof Hp as [Hb Hi].
  assert (has i c = true) as Hhas.
  { apply has_true. left. by eexists. }
  destruct fuel as [| n]; simpl in Hget; rewrite Hhas, Hr, Hi, Hb in Hget;
    simpl in Hget; [done |].
  apply bind_Ret in Hget as (v1 & c1 & Hinv & Hret).
  apply invoke_factory_returns
    with (Inv := fun c1 =>
                   uses_of (factory b) (events c1)
                   = uses_of (factory b) (events c)
                   ∧ chain c1 [i] ∧ evolves c c1) in Hinv
    as [(c2 & (Hu2 & Hc2 & He2) & Hused) _].
  - destruct Hused as (_ & _ & _ & e & Hmade & Hev).
    assert (events c' = events c1) as ->.
    { destruct (singleton b); by simplify_eq. }
    rewrite Hev, uses_of_app, Hmade, Hu2. lia.
  - intros name c2 v2 c3 Hin (Hu2 & Hc2 & He2) Hr2.
    assert (evolves c c3) as He3.
    { eapply evolves_trans; [done |].
      pose proof (resolveParameter_evolves (get n) (get_evolves n) name
                    empty_object c2) as He. by rewrite Hr2 in He. }
    destruct (chain_elem_pending _ _ i Hc2) as [bi' Hi2];
      [apply elem_of_cons; by left |].
    rewrite (evolves_pending _ _ _ _ _ He2 Hp Hi2) in Hi2.
    destruct (nested_uses n i b [] i b c2 name v2 c3) as [Hu3 Hc3]; auto.
    + by eapply evolves_identified.
    + split; [congruence |]. done.
  - split; [done |]. split; [by eapply chain_bottom | apply evolves_refl].
Qed.

(** ** Singletons *)

Lemma get_singleton_promotes fuel i b c v c' :
  pending i b c → singleton b = true → resolveIdentifier i c = i →
  get fuel i c = Ret v c' →
  holds_instance i v c' ∧ bindings c' !! i = None.
Proof.
  intros [Hb Hi] Hs Hr Hget.
  pose proof (get_evolves fuel i c) as He. rewrite Hget in He. simpl in He.
  assert (has i c = true) as Hhas.
  { apply has_true. left. by eexists. }
  destruct fuel as [| n]; simpl in Hget; rewrite Hhas, Hr, Hi, Hb in Hget;
    simpl in Hget; [done |].
  apply bind_Ret in Hget as (v1 & c1 & Hinv & Hret).
  rewrite Hs in Hret. simplify_eq. split; [split |].
  - simpl. by rewrite lookup_insert_eq.
  - etrans; [| exact Hr]. apply resolveIdentifier_aliases.
    by rewrite (ev_aliases _ _ He).
  - simpl. by rewrite lookup_delete_eq.
Qed.

Lemma run_repeat_get i v c k n :
  holds_instance i v c → run n (repeat (Get i) k) c = Some c.
Proof.
  intros H. induction k as [| k IH]; simpl; [done |].
  by rewrite (get_instance i v c H n).
Qed.

Lemma perform_not_bound i fuel op c c' :
  bindings c !! i = None → registers i op = false →
  perform fuel op c = Some c' → bindings c' !! i = None.
Proof.
  intros Hb Hop Hrun.
  assert (∀ c2, evolves c c2 → bindings c2 !! i = None) as Hev.
  { intros c2 He. destruct (bindings c2 !! i) eqn:E; [| done].
    apply (ev_bindings _ _ He) in E. congruence. }
  destruct op; simpl in *.
  - by simplify_eq.
  - eapply Hev. evolved.
  - eapply Hev. evolved.
  - eapply Hev. evolved.
  - by simplify_eq.
  - apply String.eqb_neq in Hop. simplify_eq. simpl.
    by rewrite lookup_insert_ne.
  - apply String.eqb_neq in Hop. simplify_eq. simpl.
    by rewrite lookup_insert_ne.
  - unfold makeSingleton in Hrun.
    destruct (has identifier c); simpl in Hrun; [| by simplify_eq].
    destruct (map_has _ _); simpl in Hrun; [by simplify_eq |].
    destruct (bindings c !! resolveIdentifier identifier c) eqn:E;
      simpl in Hrun; simplify_eq; [| done].
    simpl. rewrite lookup_insert_ne; [done | congruence].
  - unfold alias in Hrun.
    destruct (alias_target _ _ _); simpl in Hrun; by simplify_eq.
Qed.

Lemma registers_rebinds i op : registers i op = false → rebinds i op = false.
Proof. by destruct op. Qed.

Lemma run_promoted i v fuel ops c c' :
  holds_instance i v c → bindings c !! i = None →
  forallb (fun op => negb (registers i op)) ops = true →
  run fuel ops c = Some c' →
  holds_instance i v c' ∧ bindings c' !! i = None.
Proof.
  revert c. induction ops as [| op ops IH]; intros c Hc Hb Hops Hrun;
    simpl in *.
  - by simplify_eq.
  - apply andb_true_iff in Hops as [Hop Hops]. apply negb_true_iff in Hop.
    destruct (perform fuel op c) as [c1 |] eqn:E; [| done].
    eapply IH; [| | done | done].
    + eapply perform_holds_instance; [done | | done].
      by apply registers_rebinds.
    + by eapply perform_not_bound.
Qed.



(** C7, as the code has it. After [bindFactory(i, f, true)] on a container
    in which [i] is neither an alias nor already an instance, if the first
    [get(i)] returns a value [v] (it then does so with any larger fuel as
    well), then [f] was applied exactly once in the course of it, and any
    number of further [get(i)] return [v] and change nothing, so [f] is not
    applied again. (Functions are told apart by [fn_id]; [identified] says
    that the bound functions with the identity of [f] have its parameter
    names.) *)
Theorem singleton_factory_invoked_once (i : string) (f : Function)
    (c0 : Container) (fuel : nat) (v : Value) (c1 : Container) :
  aliases c0 !! i = None →
  instances c0 !! i = None →
  identified (UserFunction f) (bindFactory i f true c0) →
  get fuel i (bindFactory i f true c0) = Ret v c1 →
  (∀ n, (fuel ≤ n)%nat → get n i (bindFactory i f true c0) = Ret v c1)
  ∧ uses_of (UserFunction f) (events c1)
    = S (uses_of (UserFunction f) (events c0))
  ∧ ∀ k n, run n (repeat (Get i) k) c1 = Some c1 ∧ get n i c1 = Ret v c1.
Proof.
  intros Hr%resolveIdentifier_not_alias Hi Hid Hget.
  set (b := {| factory := UserFunction f; singleton := true |}).
  assert (pending i b (bindFactory i f true c0)) as Hp.
  { split; simpl; [by rewrite lookup_insert_eq | done]. }
  split; [| split].
  - intros n Hn. rewrite <- Hget. apply get_more_fuel; [done |].
    by rewrite Hget.
  - by apply (get_uses_factory_once fuel i b _ v c1 Hp Hr Hid).
  - destruct (get_singleton_promotes fuel i b _ v c1 Hp eq_refl Hr Hget)
      as [Hh _].
    intros k n. split; [by eapply run_repeat_get | by apply get_instance].
Qed.

(** C7 fails as stated when [i] already holds an instance: [get(i)]
    returns that instance and the factory is never applied. *)
Lemma singleton_factory_behind_instance :
  get 1 "name"
    (bindFactory "name" counter true
       (bindInstance "name" (VNumber 0) new_Container))
  = Ret (VNumber 0)
      (bindFactory "name" counter true
         (bindInstance "name" (VNumber 0) new_Container))
  ∧ uses_of (UserFunction counter)
      (events (bindFactory "name" counter true
                 (bindInstance "name" (VNumber 0) new_Container))) = 0.
Proof. split; reflexivity. Qed.

Lemma singleton_factory_invoked_once_witness :
  (∀ n, (1 ≤ n)%nat → get n "name" counter_bound = Ret (VNumber 1) counter_cached)
  ∧ uses_of (UserFunction counter) (events counter_cached)
    = S (uses_of (UserFunction counter) (events new_Container))
  ∧ ∀ k n, run n (repeat (Get "name") k) counter_cached = Some counter_cached
           ∧ get n "name" counter_cached = Ret (VNumber 1) counter_cached.
Proof.
  apply (singleton_factory_invoked_once "name" counter new_Container 1
           (VNumber 1) counter_cached).
  - reflexivity.
  - reflexivity.
  - intros k b Hb _. simpl in Hb.
    apply lookup_insert_Some in Hb as [[_ <-] | [_ Hb]]; [reflexivity |].
    by rewrite lookup_empty in Hb.
  - reflexivity.
Defined.

(** C2, as the code has it. After [bindConstructor(i, T, true)] on a
    container in which [i] is neither an alias nor already an instance, if
    the first [get(i)] returns a value [v] (it then does so with any larger
    fuel as well), then [T] was constructed exactly once in the course of
    it, and the binding of [i] is gone. It stays gone, and every later
    [get(i)] returns [v] and changes nothing, whatever operations follow,
    as long as none of them registers [i] again. ([v] is whatever
    [Reflect.construct] gave: the new object, or the object that the
    constructor of [T] returned. Classes are told apart by [cls_id];
    [identified] says that the bound constructors with the identity of [T]
    have its parameter names.) *)
Theorem singleton_constructor_constructs_once (i : string) (T : Class)
    (c0 : Container) (fuel : nat) (v : Value) (c1 : Container) :
  aliases c0 !! i = None →
  instances c0 !! i = None →
  identified (ConstructArrow T) (bindConstructor i T true c0) →
  get fuel i (bindConstructor i T true c0) = Ret v c1 →
  (∀ n, (fuel ≤ n)%nat → get n i (bindConstructor i T true c0) = Ret v c1)
  ∧ uses_of (ConstructArrow T) (events c1)
    = S (uses_of (ConstructArrow T) (events c0))
  ∧ bindings c1 !! i = None
  ∧ ∀ ops n c2,
      forallb (fun op => negb (registers i op)) ops = true →
      run n ops c1 = Some c2 →
      bindings c2 !! i = None ∧ ∀ m, get m i c2 = Ret v c2.
Proof.
  intros Hr%resolveIdentifier_not_alias Hi Hid Hget.
  set (b := {| factory := ConstructArrow T; singleton := true |}).
  assert (pending i b (bindConstructor i T true c0)) as Hp.
  { split; simpl; [by rewrite lookup_insert_eq | done]. }
  destruct (get_singleton_promotes fuel i b _ v c1 Hp eq_refl Hr Hget)
    as [Hh Hb].
  split.
  { intros n Hn. rewrite <- Hget. apply get_more_fuel; [done |].
    by rewrite Hget. }
  split; [by apply (get_uses_factory_once fuel i b _ v c1 Hp Hr Hid) |].
  split; [done |].
  intros ops n c2 Hops Hrun.
  destruct (run_promoted i v n ops c1 c2 Hh Hb Hops Hrun) as [Hh2 Hb2].
  split; [done | by apply get_instance].
Qed.

(** C2 fails as stated when [i] already holds an instance: [get(i)]
    returns that instance, nothing is constructed and the binding stays. *)
Lemma singleton_constructor_behind_instance :
  get 1 "name"
    (bindConstructor "name" class_A true
       (bindInstance "name" (VNumber 0) new_Container))
  = Ret (VNumber 0)
      (bindConstructor "name" class_A true
         (bindInstance "name" (VNumber 0) new_Container))
  ∧ bindings (bindConstructor "name" class_A true
                (bindInstance "name" (VNumber 0) new_Container)) !! "name"
    = Some {| factory := ConstructArrow class_A; singleton := true |}
  ∧ events (bindConstructor "name" class_A true
              (bindInstance "name" (VNumber 0) new_Container)) = [].
Proof. repeat split; reflexivity. Qed.

Lemma singleton_constructor_constructs_once_witness :
  (∀ n, (1 ≤ n)%nat → get n "name" class_A_bound = Ret (VObject 0) class_A_cached)
  ∧ uses_of (ConstructArrow class_A) (events class_A_cached)
    = S (uses_of (ConstructArrow class_A) (events new_Container))
  ∧ bindings class_A_cached !! "name" = None
  ∧ ∀ ops n c2,
      forallb (fun op => negb (registers "name" op)) ops = true →
      run n ops class_A_cached = Some c2 →
      bindings c2 !! "name" = None ∧ ∀ m, get m "name" c2 = Ret (VObject 0) c2.
Proof.
  apply (singleton_constructor_constructs_once "name" class_A new_Container 1
           (VObject 0) class_A_cached).
  - reflexivity.
  - reflexivity.
  - intros k b Hb _. simpl in Hb.
    apply lookup_insert_Some in Hb as [[_ <-] | [_ Hb]]; [reflexivity |].
    by rewrite lookup_empty in Hb.
  - reflexivity.
Defined.

(** ** What a text must contain to be matched *)

Lemma lazy_dots_suffix fl k prev rest c res :
  Rx.lazy_dots fl k prev rest c = Some res →
  ∃ p' c', snd p' `suffix_of` rest ∧ k p' c' = Some res.
Proof.
  revert prev. induction rest as [| a rest IH]; intros prev; simpl.
  - destruct (k (prev, []) c) eqn:E; [| done].
    intros [= <-]. by exists (prev, []), c.
  - destruct (k (prev, a :: rest) c) eqn:E.
    + intros [= <-]. by exists (prev, a :: rest), c.
    + destruct (Rx.dot_matches fl a); [| done].
      intros (p' & c' & Hs & Hk)%IH. exists p', c'.
      split; [by apply suffix_cons_r | done].
Qed.

Lemma greedy_dots_suffix fl k prev rest c res :
  Rx.greedy_dots fl k prev rest c = Some res →
  ∃ p' c', snd p' `suffix_of` rest ∧ k p' c' = Some res.
Proof.
  revert prev. induction rest as [| a rest IH]; intros prev; simpl.
  - intros H. by exists (prev, []), c.
  - destruct (Rx.dot_matches fl a).
    + destruct (Rx.greedy_dots fl k (Some a) rest c) eqn:E.
      * intros [= <-]. apply IH in E as (p' & c' & Hs & Hk).
        exists p', c'. split; [by apply suffix_cons_r | done].
      * intros H. by exists (prev, a :: rest), c.
    + intros H. by exists (prev, a :: rest), c.
Qed.

(** The continuation of a match runs at a suffix of the input. *)
Lemma rmatch_suffix fl r k p c res :
  Rx.rmatch fl r k p c = Some res →
  ∃ p' c', snd p' `suffix_of` snd p ∧ k p' c' = Some res.
Proof.
  revert k p c.
  induction r as [| a | | | r1 IH1 r2 IH2 | r1 IH1 r2 IH2 | r IH | | | n r IH
                  | | | r IH]; intros k p c; simpl.
  - intros H. by exists p, c.
  - destruct (snd p) as [| x rest] eqn:E; [done |].
    destruct (Ascii.eqb x a); [| done]. intros H.
    exists (Some x, rest), c. split; [by apply suffix_cons_r | done].
  - destruct (snd p) as [| x rest] eqn:E; [done |].
    destruct (Rx.dot_matches fl x); [| done]. intros H.
    exists (Some x, rest), c. split; [by apply suffix_cons_r | done].
  - destruct (snd p) as [| x rest] eqn:E; [done |].
    destruct (Rx.is_space x); [| done]. intros H.
    exists (Some x, rest), c. split; [by apply suffix_cons_r | done].
  - intros (p1 & c1 & Hs1 & (p2 & c2 & Hs2 & Hk)%IH2)%IH1.
    exists p2, c2. split; [by etrans | done].
  - destruct (Rx.rmatch fl r1 k p c) eqn:E.
    + intros [= <-]. by apply IH1 in E.
    + apply IH2.
  - destruct (Rx.rmatch fl r k p c) eqn:E.
    + intros [= <-]. by apply IH in E.
    + intros H. by exists p, c.
  - apply lazy_dots_suffix.
  - apply greedy_dots_suffix.
  - intros (p' & c' & Hs & Hk)%IH. by exists p', ((n, Rx.taken p p') :: c').
  - destruct (Rx.at_bol fl p); [| done]. intros H. by exists p, c.
  - destruct (Rx.at_eol fl p); [| done]. intros H. by exists p, c.
  - destruct (Rx.rmatch fl r _ p c); [| done]. intros H. by exists p, c.
Qed.

Lemma needs_one_of_sound l fl r k p c res :
  needs_one_of l r = true →
  Rx.rmatch fl r k p c = Some res →
  ∃ a, a ∈ l ∧ a ∈ snd p.
Proof.
  revert k p c.
  induction r as [| a | | | r1 IH1 r2 IH2 | r1 IH1 r2 IH2 | r IH | | | n r IH
                  | | | r IH]; intros k p c; simpl; try done.
  - intros (b & Hb & Hab)%existsb_exists.
    apply Ascii.eqb_eq in Hab as <-.
    destruct (snd p) as [| x rest] eqn:E; [done |].
    destruct (Ascii.eqb x a) eqn:Hx; [| done]. apply Ascii.eqb_eq in Hx as ->.
    intros _. exists a. split; [by apply list_elem_of_In |].
    apply elem_of_cons; by left.
  - intros [H1 | H2]%orb_true_iff Hm.
    + by eapply IH1.
    + apply rmatch_suffix in Hm as (p1 & c1 & Hs & Hm).
      destruct (IH2 _ _ _ H2 Hm) as (a & Ha & Hin).
      exists a. split; [done |].
      destruct Hs as [pre ->]. apply elem_of_app; by right.
  - intros [H1 H2]%andb_true_iff.
    destruct (Rx.rmatch fl r1 k p c) eqn:E.
    + intros [= <-]. by eapply IH1.
    + by apply IH2.
  - intros H. by apply IH.
Qed.

Lemma search_from_needs l fl r skipped prev rest m :
  needs_one_of l r = true →
  Rx.search_from fl r skipped prev rest = Some m →
  ∃ a, a ∈ l ∧ a ∈ rest.
Proof.
  intros Hn. revert skipped prev.
  induction rest as [| x rest IH]; intros skipped prev; simpl.
  - destruct (Rx.rmatch fl r Rx.accept (prev, []) []) eqn:E; [| done].
    intros _. by apply (needs_one_of_sound l) in E.
  - destruct (Rx.rmatch fl r Rx.accept (prev, x :: rest) []) eqn:E.
    + intros _. by apply (needs_one_of_sound l) in E.
    + intros (a & Ha & Hin)%IH. exists a. split; [done |].
      apply elem_of_cons; by right.
Qed.

(** A text with no opening parenthesis and no equals sign is matched by
    none of the declaration forms. *)
Lemma unparseable_without_parenthesis_or_equals text :
  (∀ a, a ∈ list_ascii_of_string text → a ≠ "("%char ∧ a ≠ "="%char) →
  unparseable text.
Proof.
  intros Hnone. unfold unparseable, Rx.exec.
  destruct (Rx.search_from _ _ _ _ _) as [m |] eqn:E; [| done].
  apply (search_from_needs ["("%char; "="%char]) in E as (a & Ha & Hin);
    [| reflexivity].
  destruct (Hnone a Hin) as [H1 H2].
  apply elem_of_cons in Ha as [-> | Ha]; [done |].
  apply elem_of_cons in Ha as [-> | Ha]; [done |].
  by apply elem_of_nil in Ha.
Qed.

(** ** The scenarios of the test suite *)

Example extract_class_constructor :
  extractParameterNames (cls_text (cls_own class_B)) = ["a"].
Proof. reflexivity. Qed.

Example extract_single_arrow_parameter :
  extractParameterNames (fn_text append_b) = ["a"].
Proof. reflexivity. Qed.

Example extract_default_values :
  extractParameterNames "(x = 1, y = 'test') => x" = ["x"; "y"].
Proof. reflexivity. Qed.

Example extract_ignores_comments :
  extractParameterNames "(/* x = 'default value' */) => x" = [EmptyString].
Proof. reflexivity. Qed.

Example extract_instance_method :
  extractParameterNames
    ("method(a) {" ++ line_feed ++ "    return `${a}b`;" ++ line_feed ++ "}")
  = ["a"].
Proof. reflexivity. Qed.

Example extract_line_comment :
  extractParameterNames
    ("function f(a, // first" ++ line_feed ++ "  b /* second */ = 3, c) {}")
  = ["a"; "b"; "c"].
Proof. reflexivity. Qed.

(** A function without parameters has the one parameter name [EMPTY]. *)
Example extract_no_parameters :
  extractParameterNames construct_arrow_text = [EmptyString]
  ∧ extractParameterNames "function f1() {}" = [EmptyString].
Proof. split; reflexivity. Qed.

Example has_scenarios :
  has "name" new_Container = false
  ∧ has "name" (bindInstance "name" (VString "value") new_Container) = true
  ∧ has "name" (bindConstructor "name" class_A false new_Container) = true
  ∧ has "name" (bindFactory "name" counter false new_Container) = true
  ∧ after_running 1
      [BindInstance "name" (VString "value"); Alias "name" "alias";
       Alias "alias" "secondAlias"]
      (fun c => Ret (has "alias" c, has "secondAlias" c) c)
    = Some (true, true).
Proof. repeat split; reflexivity. Qed.

Example get_by_nested_alias :
  after_running 1
    [BindInstance "name" (VString "value"); Alias "name" "alias";
     Alias "alias" "secondAlias"]
    (get 0 "secondAlias")
  = Some (VString "value").
Proof. reflexivity. Qed.

Example constructor_invoked_every_time :
  after_running 1 [BindConstructor "name" class_A false] (get_twice 1 "name")
  = Some (VObject 0, VObject 1).
Proof. reflexivity. Qed.

Example constructor_singleton :
  after_running 1 [BindConstructor "name" class_A true] (get_twice 1 "name")
  = Some (VObject 0, VObject 0).
Proof. reflexivity. Qed.

Example factory_invoked_every_time :
  after_running 1 [BindFactory "name" counter false] (get_twice 1 "name")
  = Some (VNumber 1, VNumber 2).
Proof. reflexivity. Qed.

Example factory_singleton :
  after_running 1 [BindFactory "name" counter true] (get_twice 1 "name")
  = Some (VNumber 1, VNumber 1).
Proof. reflexivity. Qed.

Example makeSingleton_scenarios :
  after_running 1 [BindFactory "name" counter false; MakeSingleton "name"]
    (get_twice 1 "name")
  = Some (VNumber 1, VNumber 1)
  ∧ makeSingleton "name" new_Container
    = Throw (UnknownIdentifier "name") new_Container
  ∧ after_running 1 [BindInstance "name" (VNumber 1); MakeSingleton "name"]
      (get_twice 1 "name")
    = Some (VNumber 1, VNumber 1).
Proof. repeat split; reflexivity. Qed.

(** [construct(C)] with [a] and [b] bound: [c.b] is a [B] whose [a] is an
    [A]. *)
Example construct_resolves_recursively :
  after_running 2
    [BindConstructor "a" class_A false; BindConstructor "b" class_B false]
    (fun c =>
       bind (construct 2 class_C empty_object c) (fun v c1 =>
       Ret (v, arguments_of v c1, arguments_of (VObject 1) c1,
            obj_origin <$> heap c1 !! 0) c1))
  = Some (VObject 2, Some [VObject 1], Some [VObject 0], Some (ByClass 1)).
Proof. reflexivity. Qed.

Example construct_uses_provided_parameters_over_bindings :
  after_running 2
    [BindConstructor "a" class_A false; BindConstructor "b" class_B false]
    (fun c =>
       bind (construct 2 class_C (object_literal [("b", VString "given")]) c)
         (fun v c1 => Ret (arguments_of v c1) c1))
  = Some (Some [VString "given"]).
Proof. reflexivity. Qed.

Example construct_without_text :
  after_running 1 [BindConstructor "a" class_without_text false] (get 1 "a")
  = Some (VObject 0).
Proof. reflexivity. Qed.

Example construct_dependency_not_found :
  after_running 2 [BindConstructor "b" class_B false]
    (fun c =>
       bind (construct 2 class_C empty_object c) (fun v c1 =>
       Ret (arguments_of v c1, arguments_of (VObject 0) c1) c1))
  = Some (Some [VObject 0], Some [VUndefined]).
Proof. reflexivity. Qed.

Example construct_subclass_without_constructor :
  firstExplicitConstructor class_D
  = {| cls_own := cls_own class_B; cls_ancestors := [] |}
  ∧ after_running 1 [BindInstance "a" (VNumber 1)]
      (fun c =>
         bind (construct 1 class_D empty_object c) (fun v c1 =>
         Ret (arguments_of v c1, obj_origin <$> heap c1 !! 0) c1))
    = Some (Some [VNumber 1], Some (ByClass 4)).
Proof. split; reflexivity. Qed.

Example invoke_scenarios :
  after_running 1 [BindInstance "a" (VString "a")]
    (invoke 1 append_b empty_object None)
  = Some (VString "ab")
  ∧ after_running 1 [BindInstance "a" (VString "c")]
      (invoke 1 append_b (object_literal [("a", VString "a")]) None)
    = Some (VString "ab")
  ∧ after_running 1 [] (invoke 1 append_b empty_object None)
    = Some (VString "undefinedb").
Proof. repeat split; reflexivity. Qed.

(** * Further properties of the code *)

(** ** What resolution does to the three maps *)

Lemma effects_refl c : effects c c.
Proof.
  split; [apply evolves_refl |]. split.
  - intros k Hn [v Hs]. congruence.
  - intros k b Hb Hn. congruence.
Qed.

Lemma effects_trans c1 c2 c3 : effects c1 c2 → effects c2 c3 → effects c1 c3.
Proof.
  intros [E1 [N1 G1]] [E2 [N2 G2]]. split; [by eapply evolves_trans |]. split.
  - intros k Hn Hs. destruct (instances c2 !! k) as [v |] eqn:E.
    + destruct (N1 k Hn) as (b & Hb & Hsing & Hgone); [by eexists |].
      exists b. split; [done |]. split; [done |].
      destruct (bindings c3 !! k) eqn:E3; [| done].
      apply (ev_bindings _ _ E2) in E3. congruence.
    + destruct (N2 k E Hs) as (b & Hb & Hsing & Hgone).
      exists b. split; [by apply (ev_bindings _ _ E1) |]. done.
  - intros k b Hb Hn. destruct (bindings c2 !! k) as [b' |] eqn:E.
    + pose proof (ev_bindings _ _ E1 _ _ E) as Hb'. simplify_eq.
      destruct (G2 k b E Hn) as (Hsing & Hi2 & Hs). split; [done |].
      split; [| done].
      destruct (instances c1 !! k) eqn:Ei; [| done].
      apply (ev_instances _ _ E1) in Ei. congruence.
    + destruct (G1 k b Hb E) as (Hsing & Hi & [v Hs]). split; [done |].
      split; [done |]. exists v. by apply (ev_instances _ _ E2).
Qed.

Lemma effects_same_maps c c' :
  bindings c' = bindings c → instances c' = instances c → evolves c c' →
  effects c c'.
Proof.
  intros Hb Hi He. split; [done |]. split.
  - intros k Hn [v Hs]. congruence.
  - intros k b Hk Hn. congruence.
Qed.

Lemma effects_promote c c1 identifier value b :
  bindings c !! identifier = Some b →
  instances c !! identifier = None →
  singleton b = true →
  effects c c1 →
  effects c (createSingletonFromBinding identifier value c1).
Proof.
  intros Hb Hi Hs [E [N G]]. split; [by eapply evolves_promote |]. split.
  - intros k Hn Hsome. simpl in *.
    destruct (decide (identifier = k)) as [<- | Hne].
    + exists b. by rewrite lookup_delete_eq.
    + rewrite lookup_insert_ne in Hsome by done.
      destruct (N k Hn Hsome) as (b' & ? & ? & ?). exists b'.
      by rewrite lookup_delete_ne.
  - intros k b' Hk Hn. simpl in *.
    destruct (decide (identifier = k)) as [<- | Hne].
    + simplify_eq. rewrite lookup_insert_eq. split; [done |].
      split; [done | by eexists].
    + rewrite lookup_delete_ne in Hn by done.
      rewrite lookup_insert_ne by done. by apply G.
Qed.

Section Effects.

Variable get_rec : string → Container → Outcome Value.
Hypothesis get_rec_effects : ∀ identifier c,
  ends_in effects c (get_rec identifier c).

Lemma resolveParameter_effects name parameters c :
  ends_in effects c (resolveParameter get_rec name parameters c).
Proof.
  unfold resolveParameter.
  destruct (js_in name parameters); [apply effects_refl |].
  destruct (has name c); [apply get_rec_effects | apply effects_refl].
Qed.

Lemma resolveParameters_effects names parameters c :
  ends_in effects c (resolveParameters get_rec names parameters c).
Proof.
  revert c. induction names as [| name names IH]; intros c; simpl.
  - apply effects_refl.
  - pose proof (resolveParameter_effects name parameters c) as H1.
    destruct (resolveParameter get_rec name parameters c) as [v c1 | e c1 |];
      simpl in *; auto.
    pose proof (IH c1) as H2.
    destruct (resolveParameters get_rec names parameters c1)
      as [vs c2 | e c2 |]; simpl in *; auto; by eapply effects_trans.
Qed.

Lemma Reflect_construct_effects constructor args c :
  ends_in effects c (Reflect_construct constructor args c).
Proof.
  pose proof (Reflect_construct_evolves constructor args c) as He.
  unfold Reflect_construct in *.
  destruct (cls_body _ _ _); simpl in *; by apply effects_same_maps.
Qed.

Lemma construct_with_effects constructor parameters c :
  ends_in effects c (construct_with get_rec constructor parameters c).
Proof.
  unfold construct_with.
  match goal with |- context [resolveParameters _ ?n _ _] =>
    pose proof (resolveParameters_effects n parameters c) as H1 end.
  destruct (resolveParameters _ _ _ _) as [vs c1 | e c1 |]; simpl in *; auto.
  pose proof (Reflect_construct_effects constructor vs c1) as H2.
  destruct (Reflect_construct _ _ _); simpl in *; auto;
    by eapply effects_trans.
Qed.

Lemma apply_effects func args c :
  ends_in effects c (apply get_rec func args c).
Proof.
  destruct func as [f | constructor]; [| apply construct_with_effects].
  simpl. destruct (fn_body f (events c) args); simpl;
    apply effects_same_maps; try done.
  - apply evolves_log.
  - eapply evolves_trans; [apply evolves_log |].
    exact (evolves_allocate (log _ c) _).
  - apply evolves_log.
Qed.

Lemma invoke_with_effects func parameters signature c :
  ends_in effects c (invoke_with get_rec func parameters signature c).
Proof.
  unfold invoke_with.
  match goal with |- context [resolveParameters _ ?n _ _] =>
    pose proof (resolveParameters_effects n parameters c) as H1 end.
  destruct (resolveParameters _ _ _ _) as [vs c1 | e c1 |]; simpl in *; auto.
  pose proof (apply_effects func vs c1) as H2.
  destruct (apply _ _ _ _); simpl in *; auto; by eapply effects_trans.
Qed.

End Effects.

Lemma get_effects fuel identifier c :
  ends_in effects c (get fuel identifier c).
Proof.
  revert identifier c. induction fuel as [| fuel IH]; intros identifier c.
  - simpl. destruct (has identifier c); simpl; [| apply effects_refl].
    destruct (instances c !! _); simpl; [apply effects_refl |].
    destruct (bindings c !! _); simpl; [done | apply effects_refl].
  - simpl. destruct (has identifier c); simpl; [| apply effects_refl].
    destruct (instances c !! _) eqn:Hi; simpl; [apply effects_refl |].
    destruct (bindings c !! _) as [b |] eqn:Hb; simpl; [| apply effects_refl].
    pose proof (invoke_with_effects (get fuel) IH (factory b) empty_object
                  None c) as H1.
    destruct (invoke_with _ _ _ _ _) as [v c1 | e c1 |]; simpl in *; auto.
    destruct (singleton b) eqn:Hs; [| done].
    by eapply effects_promote.
Qed.

Lemma perform_effects fuel op c c' :
  resolves op = true → perform fuel op c = Some c' → effects c c'.
Proof.
  intros Hop Hrun. destruct op; try done; simpl in Hrun.
  - pose proof (get_effects fuel identifier c) as H.
    destruct (get _ _ _); simpl in *; by simplify_eq.
  - pose proof (construct_with_effects (get fuel) (get_effects fuel)
                  constructor parameters c) as H.
    unfold construct in Hrun.
    destruct (construct_with _ _ _ _); simpl in *; by simplify_eq.
  - pose proof (invoke_with_effects (get fuel) (get_effects fuel)
                  (UserFunction func) parameters
                  (option_map UserFunction signature) c) as H.
    unfold invoke in Hrun.
    destruct (invoke_with _ _ _ _ _); simpl in *; by simplify_eq.
Qed.

(** X1. [get], [construct] and [invoke], whether they return or throw,
    leave the aliases alone, keep every instance as it is, and add or
    change no binding. An identifier becomes an instance only where a
    singleton binding was, and that binding is deleted with it; a binding
    disappears only in that way. *)
Theorem resolution_only_promotes_singletons (fuel : nat) (op : Operation)
    (c c' : Container) :
  resolves op = true →
  perform fuel op c = Some c' →
  aliases c' = aliases c
  ∧ (∀ k v, instances c !! k = Some v → instances c' !! k = Some v)
  ∧ (∀ k b, bindings c' !! k = Some b → bindings c !! k = Some b)
  ∧ (∀ k, instances c !! k = None → is_Some (instances c' !! k) →
          ∃ b, bindings c !! k = Some b ∧ singleton b = true
               ∧ bindings c' !! k = None)
  ∧ (∀ k b, bindings c !! k = Some b → bindings c' !! k = None →
            singleton b = true ∧ instances c !! k = None
            ∧ is_Some (instances c' !! k)).
Proof.
  intros Hop Hrun.
  destruct (perform_effects fuel op c c' Hop Hrun) as [He [Hn Hg]].
  split; [apply (ev_aliases _ _ He) |].
  split; [apply (ev_instances _ _ He) |].
  split; [apply (ev_bindings _ _ He) |]. done.
Qed.

Lemma resolution_only_promotes_singletons_witness :
  aliases counter_cached = aliases counter_bound
  ∧ (∀ k v, instances counter_bound !! k = Some v →
            instances counter_cached !! k = Some v)
  ∧ (∀ k b, bindings counter_cached !! k = Some b →
            bindings counter_bound !! k = Some b)
  ∧ (∀ k, instances counter_bound !! k = None →
          is_Some (instances counter_cached !! k) →
          ∃ b, bindings counter_bound !! k = Some b ∧ singleton b = true
               ∧ bindings counter_cached !! k = None)
  ∧ (∀ k b, bindings counter_bound !! k = Some b →
            bindings counter_cached !! k = None →
            singleton b = true ∧ instances counter_bound !! k = None
            ∧ is_Some (instances counter_cached !! k)).
Proof.
  apply (resolution_only_promotes_singletons 1 (Get "name") counter_bound
           counter_cached).
  - reflexivity.
  - reflexivity.
Defined.

(** ** Which identifiers the container knows *)

Lemma evolves_has_same k c c' : evolves c c' → has k c' = has k c.
Proof.
  intros He. destruct (has k c) eqn:Hk.
  - by apply (ev_has _ _ He).
  - by eapply evolves_unregistered.
Qed.

Lemma makeSingleton_has_same k identifier c c' :
  state_after (makeSingleton identifier c) = Some c' → has k c' = has k c.
Proof.
  unfold makeSingleton.
  destruct (has identifier c); simpl; [| by intros [= <-]].
  destruct (map_has _ _); simpl; [by intros [= <-] |].
  destruct (bindings c !! resolveIdentifier identifier c) eqn:Hb; simpl;
    intros [= <-]; [| done].
  unfold has. simpl. f_equal. f_equal. unfold map_has.
  destruct (decide (resolveIdentifier identifier c = k)) as [<- | Hne].
  - by rewrite lookup_insert_eq, Hb.
  - by rewrite lookup_insert_ne.
Qed.

(** X2. No public operation ever makes [has(k)] false: what is registered
    stays known for the lifetime of the container. An operation that
    registers [k] makes [has(k)] true, and an operation that does not
    register [k] leaves [has(k)] as it was. *)
Theorem known_identifiers_persist (fuel : nat) (op : Operation)
    (c c' : Container) (k : string) :
  perform fuel op c = Some c' →
  (has k c = true → has k c' = true)
  ∧ (registers k op = true → has k c' = true)
  ∧ (registers k op = false → has k c' = has k c).
Proof.
  intros Hrun.
  assert (registers k op = true → has k c' = true) as Hreg.
  { intros Hop. destruct op; simpl in *; try done;
      apply String.eqb_eq in Hop as ->; simplify_eq; apply has_true; simpl.
    - right; left. rewrite lookup_insert_eq. by eexists.
    - left. rewrite lookup_insert_eq. by eexists.
    - left. rewrite lookup_insert_eq. by eexists.
    - unfold alias in Hrun.
      destruct (alias_target _ _ _); simpl in Hrun; simplify_eq. simpl.
      right; right. rewrite lookup_insert_eq. by eexists. }
  assert (registers k op = false → has k c' = has k c) as Hsame.
  { intros Hop. destruct op; simpl in *.
    - by simplify_eq.
    - apply evolves_has_same. evolved.
    - apply evolves_has_same. evolved.
    - apply evolves_has_same. evolved.
    - apply String.eqb_neq in Hop. simplify_eq. unfold has, map_has. simpl.
      by rewrite lookup_insert_ne.
    - apply String.eqb_neq in Hop. simplify_eq. unfold has, map_has. simpl.
      by rewrite lookup_insert_ne.
    - apply String.eqb_neq in Hop. simplify_eq. unfold has, map_has. simpl.
      by rewrite lookup_insert_ne.
    - by eapply makeSingleton_has_same.
    - apply String.eqb_neq in Hop. unfold alias in Hrun.
      destruct (alias_target _ _ _); simpl in Hrun; simplify_eq.
      unfold has, map_has. simpl. by rewrite lookup_insert_ne. }
  split; [| done].
  intros Hk. destruct (registers k op) eqn:Hop; [auto |].
  by rewrite Hsame.
Qed.

Lemma known_identifiers_persist_witness :
  (has "name" new_Container = true →
   has "name" (bindInstance "name" (VNumber 1) new_Container) = true)
  ∧ (registers "name" (BindInstance "name" (VNumber 1)) = true →
     has "name" (bindInstance "name" (VNumber 1) new_Container) = true)
  ∧ (registers "name" (BindInstance "name" (VNumber 1)) = false →
     has "name" (bindInstance "name" (VNumber 1) new_Container)
     = has "name" new_Container).
Proof.
  apply (known_identifiers_persist 0 (BindInstance "name" (VNumber 1))
           new_Container (bindInstance "name" (VNumber 1) new_Container)
           "name").
  reflexivity.
Defined.

(** ** Bindings that are not singletons *)

Lemma get_keeps_transient_binding fuel i b c v c' :
  pending i b c → singleton b = false → get fuel i c = Ret v c' →
  pending i b c'.
Proof.
  intros [Hb Hi] Hs Hget.
  pose proof (get_effects fuel i c) as H. rewrite Hget in H.
  destruct H as [He [Hn Hg]]. split.
  - destruct (bindings c' !! i) as [b' |] eqn:E.
    + apply (ev_bindings _ _ He) in E. congruence.
    + destruct (Hg i b Hb E) as [? _]. congruence.
  - destruct (instances c' !! i) as [v' |] eqn:E; [| done].
    destruct (Hn i Hi) as (b' & ? & ? & _); [by eexists |]. congruence.
Qed.

(** X3. A binding that is not a singleton stays: if [get(i)] finds [i]
    bound by [b], not an instance and not an alias, and returns, then [i]
    is still bound by [b] afterwards, and the factory was used exactly once
    in the course of the call. So every [get(i)] uses the factory anew. *)
Theorem transient_binding_is_used_by_every_get (i : string) (b : Binding)
    (c : Container) (fuel : nat) (v : Value) (c' : Container) :
  pending i b c → singleton b = false → aliases c !! i = None →
  identified (factory b) c →
  get fuel i c = Ret v c' →
  pending i b c'
  ∧ aliases c' !! i = None
  ∧ identified (factory b) c'
  ∧ uses_of (factory b) (events c')
    = S (uses_of (factory b) (events c)).
Proof.
  intros Hp Hs Ha Hid Hget.
  pose proof (get_evolves fuel i c) as He. rewrite Hget in He. simpl in He.
  split; [by eapply get_keeps_transient_binding |].
  split; [by rewrite (ev_aliases _ _ He) |].
  split; [by eapply evolves_identified |].
  eapply get_uses_factory_once; [done | | done | done].
  by apply resolveIdentifier_not_alias.
Qed.

Lemma transient_binding_is_used_by_every_get_witness :
  pending "name" {| factory := UserFunction counter; singleton := false |}
    (log (Applied 1 [VUndefined]) counter_transient)
  ∧ aliases (log (Applied 1 [VUndefined]) counter_transient) !! "name" = None
  ∧ identified (UserFunction counter)
      (log (Applied 1 [VUndefined]) counter_transient)
  ∧ uses_of (UserFunction counter)
      (events (log (Applied 1 [VUndefined]) counter_transient))
    = S (uses_of (UserFunction counter) (events counter_transient)).
Proof.
  apply (transient_binding_is_used_by_every_get "name"
           {| factory := UserFunction counter; singleton := false |}
           counter_transient 1 (VNumber 1)
           (log (Applied 1 [VUndefined]) counter_transient)).
  - split; reflexivity.
  - reflexivity.
  - reflexivity.
  - intros k b Hb _. simpl in Hb.
    apply lookup_insert_Some in Hb as [[_ <-] | [_ Hb]]; [reflexivity |].
    by rewrite lookup_empty in Hb.
  - reflexivity.
Defined.



(** [class Config { constructor() { return shared } }], with [shared] an
    object of class [A] made before: bound without the singleton flag,
    two [get]s in a row both return [shared]; bound as a singleton, the
    instance that [get] stores is [shared]. *)
Example constructor_returning_an_object_is_not_fresh :
  after_running 1
    [Construct class_A empty_object;
     BindConstructor "config" class_Config false]
    (get_twice 1 "config")
  = Some (VObject 0, VObject 0)
  ∧ after_running 1
      [Construct class_A empty_object;
       BindConstructor "config" class_Config true;
       Get "config"]
      (fun c => Ret (instances c !! "config", length (heap c)) c)
    = Some (Some (VObject 0), 1).
Proof. split; reflexivity. Qed.

(** ** [makeSingleton] *)

Lemma get_promotes_resolved fuel i r b c v c' :
  has i c = true → resolveIdentifier i c = r → pending r b c →
  singleton b = true →
  get fuel i c = Ret v c' →
  instances c' !! r = Some v ∧ bindings c' !! r = None.
Proof.
  intros Hhas Hr [Hb Hi] Hs Hget.
  destruct fuel as [| n]; simpl in Hget; rewrite Hhas, Hr, Hi, Hb in Hget;
    simpl in Hget; [done |].
  apply bind_Ret in Hget as (v1 & c1 & Hinv & Hret).
  rewrite Hs in Hret. simplify_eq. simpl.
  by rewrite lookup_insert_eq, lookup_delete_eq.
Qed.

(** X5. [makeSingleton(i)] on an identifier that resolves to a binding [b]
    of [r] (not yet an instance) returns and only sets the singleton flag
    of that binding. The next [get(i)] that returns then stores its value
    as the instance of [r] and deletes the binding, and every [get(i)]
    after it returns that same value without changing anything. *)
Theorem makeSingleton_then_get (i r : string) (b : Binding) (c : Container) :
  has i c = true → resolveIdentifier i c = r → pending r b c →
  makeSingleton i c
  = Ret tt (set_bindings
              (<[r := {| factory := factory b; singleton := true |}]>
                 (bindings c)) c)
  ∧ ∀ n v c2,
      get n i (set_bindings
                 (<[r := {| factory := factory b; singleton := true |}]>
                    (bindings c)) c) = Ret v c2 →
      instances c2 !! r = Some v ∧ bindings c2 !! r = None
      ∧ ∀ m, get m i c2 = Ret v c2.
Proof.
  intros Hhas Hr [Hb Hi].
  set (c1 := set_bindings _ c).
  split.
  { unfold makeSingleton. rewrite Hhas, Hr. simpl.
    rewrite (proj2 (map_has_false _ _) Hi). by rewrite Hb. }
  intros n v c2 Hget.
  assert (has i c1 = true) as Hhas1.
  { apply has_true in Hhas. apply has_true. simpl.
    destruct Hhas as [[b' Hb'] | H]; [| by right].
    left. destruct (decide (r = i)) as [-> | Hne].
    - rewrite lookup_insert_eq. by eexists.
    - rewrite lookup_insert_ne by done. by eexists. }
  assert (pending r {| factory := factory b; singleton := true |} c1) as Hp.
  { split; simpl; [by rewrite lookup_insert_eq | done]. }
  destruct (get_promotes_resolved n i r _ c1 v c2 Hhas1 Hr Hp eq_refl Hget)
    as [Hi2 Hb2].
  split; [done |]. split; [done |].
  pose proof (get_evolves n i c1) as He. rewrite Hget in He. simpl in He.
  intros m.
  assert (has i c2 = true) as Hhas2 by (by apply (ev_has _ _ He)).
  assert (resolveIdentifier i c2 = r) as Hr2.
  { rewrite <- Hr. apply resolveIdentifier_aliases.
    by rewrite (ev_aliases _ _ He). }
  destruct m; simpl; by rewrite Hhas2, Hr2, Hi2.
Qed.

Lemma makeSingleton_then_get_witness :
  makeSingleton "name" counter_transient
  = Ret tt (set_bindings
              (<["name" := {| factory := UserFunction counter;
                              singleton := true |}]>
                 (bindings counter_transient)) counter_transient)
  ∧ ∀ n v c2,
      get n "name"
        (set_bindings
           (<["name" := {| factory := UserFunction counter;
                           singleton := true |}]>
              (bindings counter_transient)) counter_transient) = Ret v c2 →
      instances c2 !! "name" = Some v ∧ bindings c2 !! "name" = None
      ∧ ∀ m, get m "name" c2 = Ret v c2.
Proof.
  apply (makeSingleton_then_get "name" "name"
           {| factory := UserFunction counter; singleton := false |}
           counter_transient).
  - reflexivity.
  - reflexivity.
  - split; reflexivity.
Defined.

(** X6. When [makeSingleton(i)] returns, nothing has changed but the
    singleton flag of at most one binding: the instances, the aliases, the
    heap and the events are the same, every binding keeps its factory, no
    flag that was set is cleared, and a second [makeSingleton(i)] returns
    and changes nothing any more. *)
Theorem makeSingleton_only_sets_a_flag (i : string) (c c' : Container) :
  makeSingleton i c = Ret tt c' →
  instances c' = instances c ∧ aliases c' = aliases c
  ∧ heap c' = heap c ∧ events c' = events c
  ∧ (∀ k, factory <$> bindings c' !! k = factory <$> bindings c !! k)
  ∧ (∀ k b, bindings c !! k = Some b → singleton b = true →
            bindings c' !! k = Some b)
  ∧ makeSingleton i c' = Ret tt c'.
Proof.
  unfold makeSingleton at 1.
  destruct (has i c) eqn:Hhas; simpl; [| done].
  destruct (map_has (instances c) (resolveIdentifier i c)) eqn:Hinst; simpl.
  { intros [= <-]. repeat split; try done.
    unfold makeSingleton. by rewrite Hhas, Hinst. }
  destruct (bindings c !! resolveIdentifier i c) as [b |] eqn:Hb; [| done].
  intros [= <-]. simpl. repeat split; try done.
  - intros k. destruct (decide (resolveIdentifier i c = k)) as [<- | Hne].
    + by rewrite lookup_insert_eq, Hb.
    + by rewrite lookup_insert_ne.
  - intros k b' Hk Hs. destruct (decide (resolveIdentifier i c = k))
      as [<- | Hne].
    + rewrite lookup_insert_eq. rewrite Hb in Hk. injection Hk as <-.
      destruct b as [f s]. simpl in *. by subst.
    + by rewrite lookup_insert_ne.
  - unfold makeSingleton.
    assert (has i (set_bindings
                     (<[resolveIdentifier i c :=
                          {| factory := factory b; singleton := true |}]>
                        (bindings c)) c) = true) as ->.
    { apply has_true in Hhas. apply has_true. simpl.
      destruct Hhas as [[b' Hb'] | H]; [| by right].
      left. destruct (decide (resolveIdentifier i c = i)) as [-> | Hne].
      - rewrite lookup_insert_eq. by eexists.
      - rewrite lookup_insert_ne by done. by eexists. }
    simpl. unfold resolveIdentifier at 1 3. simpl.
    fold (resolveIdentifier i c). rewrite Hinst, lookup_insert_eq. simpl.
    by rewrite insert_insert_eq.
Qed.

Lemma makeSingleton_only_sets_a_flag_witness :
  instances counter_bound = instances counter_transient
  ∧ aliases counter_bound = aliases counter_transient
  ∧ heap counter_bound = heap counter_transient
  ∧ events counter_bound = events counter_transient
  ∧ (∀ k, factory <$> bindings counter_bound !! k
          = factory <$> bindings counter_transient !! k)
  ∧ (∀ k b, bindings counter_transient !! k = Some b → singleton b = true →
            bindings counter_bound !! k = Some b)
  ∧ makeSingleton "name" counter_bound = Ret tt counter_bound.
Proof.
  apply (makeSingleton_only_sets_a_flag "name" counter_transient
           counter_bound).
  vm_compute. reflexivity.
Defined.

(** ** Dependency cycles *)

(** X7. Identifiers that wait for each other are never resolved: when every
    identifier of [ids] is bound, is not an instance, and has a factory
    parameter that [get] takes to an identifier of [ids], then [get] of any
    identifier that resolves into [ids] returns no value, however much fuel
    it is given. *)
Theorem dependency_cycle_never_returns (ids : list string) (c : Container)
    (i : string) :
  stuck ids c → has i c = true → resolveIdentifier i c ∈ ids →
  ∀ n, returned (get n i c) = None.
Proof.
  intros Hstuck Hhas Hin n.
  destruct (get n i c) as [v c' | |] eqn:E; [| done | done].
  exfalso. by eapply (proj1 (stuck_get n ids c Hstuck) i v c' Hhas Hin).
Qed.

Lemma dependency_cycle_never_returns_witness :
  returned (get 5 "a" bound_to_itself) = None.
Proof.
  apply (dependency_cycle_never_returns ["a"] bound_to_itself "a").
  - intros r ->%list_elem_of_singleton.
    exists {| factory := UserFunction needs_its_parameter;
              singleton := false |}, "a".
    split; [split; reflexivity |]. split; [| by apply list_elem_of_here].
    exists "a". split; [| repeat split; reflexivity].
    change ("a" ∈ extractParameterNames "a => a").
    assert (extractParameterNames "a => a" = ["a"]) as ->
      by (vm_compute; reflexivity).
    apply list_elem_of_here.
  - reflexivity.
  - apply list_elem_of_here.
Defined.

Lemma construct_arrow_resolves_empty_name constructor :
  EmptyString ∈ factory_names (ConstructArrow constructor).
Proof.
  unfold factory_names. apply elem_of_app. left.
  assert (extractParameterNames construct_arrow_text = [EmptyString]) as ->
    by reflexivity.
  apply elem_of_cons; by left.
Qed.

(** X8. The empty identifier cannot hold a factory without parameters: the
    text of such a function gives the one parameter name [EMPTY], which
    [get] resolves from the container again. So when the empty identifier
    is bound (and is neither an instance nor an alias) to a factory whose
    names include the empty one, as they do for every constructor binding,
    [get] of it never returns. *)
Theorem factory_under_empty_identifier_never_returns (b : Binding)
    (c : Container) :
  pending EmptyString b c → aliases c !! EmptyString = None →
  EmptyString ∈ factory_names (factory b) →
  ∀ n, returned (get n EmptyString c) = None.
Proof.
  intros Hp Ha Hname n.
  assert (has EmptyString c = true) as Hhas.
  { apply has_true. left. destruct Hp as [Hb _]. by eexists. }
  pose proof (resolveIdentifier_not_alias _ c Ha) as Hr.
  assert (stuck [EmptyString] c) as Hstuck.
  { intros r Hr'. apply list_elem_of_singleton in Hr' as ->.
    exists b, EmptyString. split; [done |]. split.
    - exists EmptyString. by repeat split.
    - apply elem_of_cons; by left. }
  destruct (get n EmptyString c) as [v c' | |] eqn:E; [| done | done].
  exfalso. eapply (proj1 (stuck_get n _ c Hstuck) _ v c' Hhas); [| done].
  rewrite Hr. apply elem_of_cons; by left.
Qed.

Lemma factory_under_empty_identifier_never_returns_witness :
  returned (get 5 EmptyString
              (bindConstructor EmptyString class_A false new_Container))
  = None.
Proof.
  apply (factory_under_empty_identifier_never_returns
           {| factory := ConstructArrow class_A; singleton := false |}
           (bindConstructor EmptyString class_A false new_Container)).
  - split; reflexivity.
  - reflexivity.
  - assert (factory_names (ConstructArrow class_A) = [EmptyString]) as H
      by (vm_compute; reflexivity).
    simpl factory. rewrite H. apply list_elem_of_here.
Defined.

(** ** One alias *)

Lemma alias_target_not_alias fuel a identifier :
  a !! identifier = None → alias_target fuel a identifier = Some identifier.
Proof. intros H. destruct fuel; simpl; by rewrite H. Qed.

(** X9. [alias(i, al)] for an [i] that is not an alias (and not the empty
    string) always returns, and from then on [al] stands for [i]: [has(al)]
    is true, [al] resolves to [i], and [get(al)] does exactly what [get(i)]
    does when [i] is registered, whatever was registered under [al]
    itself. *)
Theorem alias_stands_for_identifier (i al : string) (c : Container)
    (fuel : nat) :
  aliases c !! i = None → i ≠ EmptyString →
  alias fuel i al c = Ret tt (set_aliases (<[al := i]> (aliases c)) c)
  ∧ has al (set_aliases (<[al := i]> (aliases c)) c) = true
  ∧ resolveIdentifier al (set_aliases (<[al := i]> (aliases c)) c) = i
  ∧ (has i c = true →
     ∀ n, get n al (set_aliases (<[al := i]> (aliases c)) c)
          = get n i (set_aliases (<[al := i]> (aliases c)) c)).
Proof.
  intros Ha Hi. set (c1 := set_aliases _ c).
  assert (has al c1 = true) as Hal.
  { apply has_true. right; right. simpl. rewrite lookup_insert_eq.
    by eexists. }
  assert (resolveIdentifier al c1 = i) as Hr.
  { apply resolveIdentifier_alias; [| done]. simpl.
    by rewrite lookup_insert_eq. }
  split; [| split; [done | split; [done |]]].
  - unfold alias. by rewrite alias_target_not_alias.
  - intros Hhas n. apply get_same_target; [done | |].
    + apply has_true in Hhas. apply has_true. simpl.
      destruct Hhas as [H | [H | [t Ht]]]; [by left | by right; left |].
      congruence.
    + rewrite Hr. symmetry.
      destruct (decide (al = i)) as [-> | Hne]; [done |].
      apply resolveIdentifier_not_alias. simpl. by rewrite lookup_insert_ne.
Qed.

Lemma alias_stands_for_identifier_witness :
  alias 0 "name" "other" counter_bound
  = Ret tt (set_aliases (<["other" := "name"]> (aliases counter_bound))
              counter_bound)
  ∧ has "other" (set_aliases (<["other" := "name"]> (aliases counter_bound))
                   counter_bound) = true
  ∧ resolveIdentifier "other"
      (set_aliases (<["other" := "name"]> (aliases counter_bound))
         counter_bound) = "name"
  ∧ (has "name" counter_bound = true →
     ∀ n, get n "other"
            (set_aliases (<["other" := "name"]> (aliases counter_bound))
               counter_bound)
          = get n "name"
              (set_aliases (<["other" := "name"]> (aliases counter_bound))
                 counter_bound)).
Proof.
  apply (alias_stands_for_identifier "name" "other" counter_bound 0).
  - reflexivity.
  - discriminate.
Defined.

Lemma alias_target_loop fuel a identifier :
  a !! identifier = Some identifier → alias_target fuel a identifier = None.
Proof. intros H. induction fuel as [| fuel IH]; simpl; by rewrite H. Qed.

(** X10. An identifier can be made an alias of itself, and no alias of it
    can be created after that: [alias(a, a)] on an [a] that is not an alias
    returns and stores [a -> a]; every later [alias(a, al)] follows that
    entry round and round and never returns. *)
Theorem alias_of_itself_blocks_alias (a : string) (c : Container) :
  aliases c !! a = None →
  alias 0 a a c = Ret tt (set_aliases (<[a := a]> (aliases c)) c)
  ∧ ∀ fuel al,
      alias fuel a al (set_aliases (<[a := a]> (aliases c)) c) = OutOfFuel.
Proof.
  intros Ha. split.
  - unfold alias. by rewrite alias_target_not_alias.
  - intros fuel al. unfold alias. rewrite alias_target_loop; [done |].
    simpl. by rewrite lookup_insert_eq.
Qed.

Lemma alias_of_itself_blocks_alias_witness :
  alias 0 "a" "a" new_Container
  = Ret tt (set_aliases (<["a" := "a"]> (aliases new_Container))
              new_Container)
  ∧ ∀ fuel al,
      alias fuel "a" al
        (set_aliases (<["a" := "a"]> (aliases new_Container)) new_Container)
      = OutOfFuel.
Proof.
  apply (alias_of_itself_blocks_alias "a" new_Container). reflexivity.
Defined.

(** ** Resolution that needs no lookup *)

(** X11. Parameter names that are given explicitly, or that the container
    does not know, are resolved without any [get]: when every name of the
    constructor (or function) is of that kind, [construct] (or [invoke])
    hands over the explicit values, [undefined] for the others, in the
    order of the names, with any fuel, and touches the container only by
    the call itself. *)
Theorem explicit_or_unknown_names_need_no_lookup (parameters : NamedParameters)
    (c : Container) (names : list string) :
  (∀ name, name ∈ names →
           js_in name parameters = true ∨ has name c = false) →
  (∀ fuel constructor,
     extractParameterNames
       (cls_text (cls_own (firstExplicitConstructor constructor))) = names →
     construct fuel constructor parameters c
     = Reflect_construct constructor (js_get parameters <$> names) c)
  ∧ (∀ fuel func signature,
       extractParameterNames (fn_text (default func signature)) = names →
       invoke fuel func parameters signature c
       = apply (get fuel) (UserFunction func)
           (js_get parameters <$> names) c).
Proof.
  intros Hnames. split.
  - intros fuel constructor <-. unfold construct, construct_with.
    by rewrite resolveParameters_nothing_bound.
  - intros fuel func signature <-. unfold invoke, invoke_with.
    destruct signature; simpl in *;
      by rewrite resolveParameters_nothing_bound.
Qed.

Lemma explicit_or_unknown_names_need_no_lookup_witness :
  (∀ fuel constructor,
     extractParameterNames
       (cls_text (cls_own (firstExplicitConstructor constructor)))
     = ["a"; "b"] →
     construct fuel constructor (object_literal [("a", VNumber 1)])
       new_Container
     = Reflect_construct constructor
         (js_get (object_literal [("a", VNumber 1)]) <$> ["a"; "b"])
         new_Container)
  ∧ (∀ fuel func signature,
       extractParameterNames (fn_text (default func signature))
       = ["a"; "b"] →
       invoke fuel func (object_literal [("a", VNumber 1)]) signature
         new_Container
       = apply (get fuel) (UserFunction func)
           (js_get (object_literal [("a", VNumber 1)]) <$> ["a"; "b"])
           new_Container).
Proof.
  apply (explicit_or_unknown_names_need_no_lookup
           (object_literal [("a", VNumber 1)]) new_Container ["a"; "b"]).
  intros name [-> | ->%list_elem_of_singleton]%elem_of_cons.
  - left. reflexivity.
  - right. reflexivity.
Defined.

(** ** Errors *)

Section NoError.

Variable get_rec : string → Container → Outcome Value.
Hypothesis get_rec_known : ∀ identifier c m c',
  has identifier c = true → get_rec identifier c ≠ Throw (Error m) c'.

Lemma resolveParameter_no_Error name parameters c m c' :
  resolveParameter get_rec name parameters c ≠ Throw (Error m) c'.
Proof.
  unfold resolveParameter. destruct (js_in _ _); [done |].
  destruct (has name c) eqn:E; [by apply get_rec_known | done].
Qed.

Lemma resolveParameters_no_Error names parameters c m c' :
  resolveParameters get_rec names parameters c ≠ Throw (Error m) c'.
Proof.
  revert c. induction names as [| name names IH]; intros c; simpl; [done |].
  pose proof (resolveParameter_no_Error name parameters c m c') as H1.
  destruct (resolveParameter get_rec name parameters c) as [v c1 | e c1 |];
    simpl; [| intros [= -> ->]; by apply H1 | done].
  pose proof (IH c1) as H2.
  destruct (resolveParameters get_rec names parameters c1); simpl;
    [done | intros [= -> ->]; by apply H2 | done].
Qed.

Lemma construct_with_no_Error constructor parameters c m c' :
  construct_with get_rec constructor parameters c ≠ Throw (Error m) c'.
Proof.
  unfold construct_with.
  match goal with |- context [resolveParameters _ ?n _ _] =>
    pose proof (resolveParameters_no_Error n parameters c m c') as H1 end.
  destruct (resolveParameters _ _ _ _) as [vs c1 | e c1 |]; simpl;
    [| intros [= -> ->]; by apply H1 | done].
  unfold Reflect_construct. by destruct (cls_body _ _ _).
Qed.

Lemma invoke_with_no_Error func parameters signature c m c' :
  invoke_with get_rec func parameters signature c ≠ Throw (Error m) c'.
Proof.
  unfold invoke_with.
  match goal with |- context [resolveParameters _ ?n _ _] =>
    pose proof (resolveParameters_no_Error n parameters c m c') as H1 end.
  destruct (resolveParameters _ _ _ _) as [vs c1 | e c1 |]; simpl;
    [| intros [= -> ->]; by apply H1 | done].
  destruct func as [f | constructor]; simpl.
  - by destruct (fn_body f _ _).
  - apply construct_with_no_Error.
Qed.

End NoError.

Lemma get_known_no_Error n identifier c m c' :
  has identifier c = true → get n identifier c ≠ Throw (Error m) c'.
Proof.
  revert identifier c m c'.
  induction n as [| n IH]; intros identifier c m c' Hhas; simpl; rewrite Hhas;
    simpl; destruct (instances c !! _); try done;
    destruct (bindings c !! _) as [b |]; try done.
  pose proof (invoke_with_no_Error (get n) IH (factory b) empty_object None
                c m c') as H.
  destruct (invoke_with _ _ _ _ _); simpl; [done | intros [= -> ->]; by apply H | done].
Qed.

(** X12. The unknown-identifier error is only ever about the identifier
    that was asked for: if [get(i)] throws an [Error], then [has(i)] was
    false, the error is [Error("Unknown identifier: i")] and nothing was
    done. The parameters that [get], [construct] and [invoke] resolve are
    looked up only when the container has them, so [construct] and [invoke]
    never throw that error; what else they throw is a [TypeError] or
    comes from user code. *)
Theorem unknown_identifier_only_at_the_top (n : nat) (c : Container)
    (m : string) (c' : Container) :
  (∀ i, get n i c = Throw (Error m) c' →
        has i c = false ∧ Error m = UnknownIdentifier i ∧ c' = c)
  ∧ (∀ constructor parameters,
       construct n constructor parameters c ≠ Throw (Error m) c')
  ∧ (∀ func parameters signature,
       invoke n func parameters signature c ≠ Throw (Error m) c').
Proof.
  split; [| split].
  - intros i Hget. destruct (has i c) eqn:Hhas.
    + by apply get_known_no_Error in Hget.
    + destruct n; simpl in Hget; rewrite Hhas in Hget; simpl in Hget;
        by simplify_eq.
  - intros constructor parameters.
    apply construct_with_no_Error. intros. by apply get_known_no_Error.
  - intros func parameters signature.
    apply invoke_with_no_Error. intros. by apply get_known_no_Error.
Qed.

(** ** The search of [firstExplicitConstructor] *)

Lemma explicit_from_decompose d chain before d' after :
  d :: chain = before ++ d' :: after →
  forallb (fun x => negb (declares_constructor x)) before = true →
  declares_constructor d' = true →
  explicit_from d chain = Some {| cls_own := d'; cls_ancestors := after |}.
Proof.
  revert d chain.
  induction before as [| x before IH]; intros d chain Heq Hb Hd; simpl in *.
  - simplify_eq. unfold declares_constructor in Hd.
    destruct after; simpl; by rewrite Hd.
  - simplify_eq. apply andb_true_iff in Hb as [Hx Hb].
    apply negb_true_iff in Hx. unfold declares_constructor in Hx.
    destruct before as [| y before]; simpl in *; rewrite Hx.
    + by apply (IH d' after).
    + by apply (IH y (before ++ d' :: after)).
Qed.

Lemma explicit_from_not_found d chain :
  forallb (fun x => negb (declares_constructor x)) (d :: chain) = true →
  explicit_from d chain = None.
Proof.
  intros Hall. destruct (explicit_from d chain) as [cls |] eqn:E; [| done].
  apply explicit_from_first in E as (before & Heq & _ & Hd).
  rewrite Heq, forallb_app in Hall. apply andb_true_iff in Hall as [_ Hall].
  simpl in Hall. by rewrite Hd in Hall.
Qed.

(** X13. [firstExplicitConstructor] returns the first constructible of the
    prototype chain, starting with the given one, whose text passes the
    class-constructor test, together with what is above it on the chain;
    when none passes it returns the given one. Searching again from the
    result changes nothing. *)
Theorem firstExplicitConstructor_is_first_declaring (constructor : Class) :
  (∀ before d after,
     cls_own constructor :: cls_ancestors constructor
     = before ++ d :: after →
     forallb (fun x => negb (declares_constructor x)) before = true →
     declares_constructor d = true →
     firstExplicitConstructor constructor
     = {| cls_own := d; cls_ancestors := after |})
  ∧ (forallb (fun x => negb (declares_constructor x))
       (cls_own constructor :: cls_ancestors constructor) = true →
     firstExplicitConstructor constructor = constructor)
  ∧ firstExplicitConstructor (firstExplicitConstructor constructor)
    = firstExplicitConstructor constructor.
Proof.
  split; [| split].
  - intros before d after Heq Hb Hd. unfold firstExplicitConstructor.
    by rewrite (explicit_from_decompose _ _ _ _ _ Heq Hb Hd).
  - intros Hall. unfold firstExplicitConstructor.
    by rewrite explicit_from_not_found.
  - unfold firstExplicitConstructor at 2 3.
    destruct (explicit_from _ _) as [cls |] eqn:E.
    + pose proof (explicit_from_first _ _ _ E) as (_ & _ & _ & Hd).
      unfold firstExplicitConstructor.
      rewrite (explicit_from_decompose _ _ [] (cls_own cls)
                 (cls_ancestors cls) eq_refl eq_refl Hd).
      by destruct cls.
    + unfold firstExplicitConstructor. by rewrite E.
Qed.

(** ** Which pattern of [captureGroups] matches, and where *)

Lemma lazy_dots_same_captures fl k prev rest c res :
  Rx.lazy_dots fl k prev rest c = Some res → ∃ p', k p' c = Some res.
Proof.
  revert prev. induction rest as [| a rest IH]; intros prev; simpl.
  - destruct (k (prev, []) c) eqn:E; [| done]. intros [= <-]. eauto.
  - destruct (k (prev, a :: rest) c) eqn:E.
    + intros [= <-]. eauto.
    + destruct (Rx.dot_matches fl a); [apply IH | done].
Qed.

Lemma greedy_dots_same_captures fl k prev rest c res :
  Rx.greedy_dots fl k prev rest c = Some res → ∃ p', k p' c = Some res.
Proof.
  revert prev. induction rest as [| a rest IH]; intros prev; simpl.
  - eauto.
  - destruct (Rx.dot_matches fl a); [| eauto].
    destruct (Rx.greedy_dots fl k (Some a) rest c) eqn:E; [| eauto].
    intros [= <-]. by apply IH in E.
Qed.

(** A match only sets the groups of its pattern. *)
Lemma rmatch_groups fl r k p c res :
  Rx.rmatch fl r k p c = Some res →
  ∃ p' c', k p' c' = Some res
           ∧ ∀ n, n ∉ groups r → Rx.capture c' n = Rx.capture c n.
Proof.
  revert k p c.
  induction r as [| a | | | r1 IH1 r2 IH2 | r1 IH1 r2 IH2 | r IH | | | g r IH
                  | | | r IH]; intros k p c; simpl.
  - eauto.
  - destruct (snd p) as [| x rest]; [done |].
    destruct (Ascii.eqb x a); [eauto | done].
  - destruct (snd p) as [| x rest]; [done |].
    destruct (Rx.dot_matches fl x); [eauto | done].
  - destruct (snd p) as [| x rest]; [done |].
    destruct (Rx.is_space x); [eauto | done].
  - intros (p1 & c1 & (p2 & c2 & Hk & H2)%IH2 & H1)%IH1.
    exists p2, c2. split; [done |]. intros n Hn.
    rewrite H2, H1; [done | |]; intros Hin; apply Hn, elem_of_app; auto.
  - destruct (Rx.rmatch fl r1 k p c) eqn:E.
    + intros [= <-]. apply IH1 in E as (p' & c' & Hk & H).
      exists p', c'. split; [done |]. intros n Hn. apply H.
      intros Hin; apply Hn, elem_of_app; auto.
    + intros (p' & c' & Hk & H)%IH2.
      exists p', c'. split; [done |]. intros n Hn. apply H.
      intros Hin; apply Hn, elem_of_app; auto.
  - destruct (Rx.rmatch fl r k p c) eqn:E; [| eauto].
    intros [= <-]. by apply IH in E.
  - intros [p' Hk]%lazy_dots_same_captures. eauto.
  - intros [p' Hk]%greedy_dots_same_captures. eauto.
  - intros (p' & c' & Hk & H)%IH. eexists _, _. split; [exact Hk |].
    intros n Hn. simpl.
    destruct (Nat.eqb g n) eqn:E.
    + apply Nat.eqb_eq in E as ->. exfalso. apply Hn, elem_of_cons. by left.
    + apply H. intros Hin. apply Hn, elem_of_cons. by right.
  - destruct (Rx.at_bol fl p); [eauto | done].
  - destruct (Rx.at_eol fl p); [eauto | done].
  - destruct (Rx.rmatch fl r _ p c); [eauto | done].
Qed.

Lemma prev_after_cons prev a pre :
  prev_after prev (a :: pre) = prev_after (Some a) pre.
Proof.
  unfold prev_after. destruct pre as [| b pre]; [done |].
  change (last (a :: b :: pre)) with (last (b :: pre)).
  destruct (last (b :: pre)) eqn:E; [done |]. by apply last_None in E.
Qed.

(** With the [s] flag, [.*?] reaches every later position. *)
Lemma lazy_dots_complete fl k prev pre rest c :
  Rx.dotAll fl = true →
  is_Some (k (prev_after prev pre, rest) c) →
  is_Some (Rx.lazy_dots fl k prev (pre ++ rest) c).
Proof.
  intros Hs. revert prev. induction pre as [| a pre IH]; intros prev Hk.
  - simpl. change (prev_after prev []) with prev in Hk.
    destruct Hk as [res Hk]. destruct rest; simpl; by rewrite Hk.
  - simpl. destruct (k (prev, a :: pre ++ rest) c); [done |].
    unfold Rx.dot_matches. rewrite Hs. simpl. apply IH.
    by rewrite prev_after_cons in Hk.
Qed.

Lemma rmatch_alt fl r1 r2 k p c :
  Rx.rmatch fl (Rx.RAlt r1 r2) k p c
  = match Rx.rmatch fl r1 k p c with
    | Some res => Some res
    | None => Rx.rmatch fl r2 k p c
    end.
Proof. reflexivity. Qed.

Lemma paren_pair_suffix l l' : l' `suffix_of` l → paren_pair l' → paren_pair l.
Proof.
  intros [pre0 ->] (pre & mid & post & ->).
  exists (pre0 ++ pre), mid, post. by rewrite <- app_assoc.
Qed.

Lemma arrow_suffix l l' : l' `suffix_of` l → arrow l' → arrow l.
Proof.
  intros [pre0 ->] (pre & post & ->).
  exists (pre0 ++ pre), post. by rewrite <- app_assoc.
Qed.

Lemma paren_group_needs_pair fl n tail k p c res :
  Rx.rmatch fl (paren_group n tail) k p c = Some res → paren_pair (snd p).
Proof.
  unfold paren_group. simpl.
  destruct (snd p) as [| x rest] eqn:E; [done |].
  destruct (Ascii.eqb x "(") eqn:Hx; [| done].
  apply Ascii.eqb_eq in Hx as ->.
  intros (p' & c' & [mid Hs] & Hk)%lazy_dots_suffix. simpl in Hs.
  destruct (snd p') as [| y rest'] eqn:E'; [done |].
  destruct (Ascii.eqb y ")") eqn:Hy; [| done].
  apply Ascii.eqb_eq in Hy as ->.
  exists [], mid, rest'. by rewrite Hs.
Qed.

Lemma after_prefix_needs_pair fl r n tail k p c res :
  Rx.rmatch fl (Rx.RSeq r (paren_group n tail)) k p c = Some res →
  paren_pair (snd p).
Proof.
  intros H. change (Rx.rmatch fl r (fun p' c' =>
                      Rx.rmatch fl (paren_group n tail) k p' c') p c
                    = Some res) in H.
  apply rmatch_suffix in H as (p' & c' & Hs & H).
  apply paren_group_needs_pair in H. by eapply paren_pair_suffix.
Qed.

Lemma pattern_needs_pair fl r k p c res :
  r = class_constructor_pattern 1 ∨ r = instance_method_pattern
  ∨ r = arrow_pattern ∨ r = function_pattern →
  Rx.rmatch fl r k p c = Some res → paren_pair (snd p).
Proof.
  intros [-> | [-> | [-> | ->]]] H.
  - change (Rx.rmatch fl
              (Rx.RSeq (Rx.seqs [Rx.RBol; Rx.lit "class "; Rx.RLazyDots;
                                 Rx.lit "constructor"])
                 (paren_group 1 Rx.REmpty)) k p c = Some res) in H.
    by eapply after_prefix_needs_pair.
  - change (Rx.rmatch fl
              (Rx.RSeq (Rx.RSeq Rx.RBol Rx.RLazyDots)
                 (paren_group 2 Rx.REmpty)) k p c = Some res) in H.
    by eapply after_prefix_needs_pair.
  - change (Rx.rmatch fl
              (Rx.RSeq Rx.RBol
                 (paren_group 4
                    (Rx.seqs [Rx.ROpt (Rx.RChar " "); Rx.lit "=>"])))
              k p c = Some res) in H.
    by eapply after_prefix_needs_pair.
  - change (Rx.rmatch fl
              (Rx.RSeq (Rx.seqs [Rx.RBol; Rx.lit "function"; Rx.RLazyDots])
                 (paren_group 5 Rx.REmpty)) k p c = Some res) in H.
    by eapply after_prefix_needs_pair.
Qed.

Lemma single_arrow_needs_arrow fl k p c res :
  Rx.rmatch fl single_arrow_pattern k p c = Some res → arrow (snd p).
Proof.
  intros H.
  change (Rx.rmatch fl
            (Rx.seqs [Rx.RBol; Rx.ROpt (Rx.lit "async ");
                      Rx.RGroup 3 Rx.RLazyDots; Rx.ROpt (Rx.RChar " ")])
            (fun p' c' => Rx.rmatch fl (Rx.lit "=>") k p' c') p c
          = Some res) in H.
  apply rmatch_suffix in H as (p' & c' & Hs & H). simpl in H.
  destruct (snd p') as [| x rest] eqn:E; [done |].
  destruct (Ascii.eqb x "=") eqn:Hx; [| done].
  apply Ascii.eqb_eq in Hx as ->. simpl in H.
  destruct rest as [| y rest]; [done |].
  destruct (Ascii.eqb y ">") eqn:Hy; [| done].
  apply Ascii.eqb_eq in Hy as ->.
  eapply arrow_suffix; [done |]. by exists [], rest.
Qed.

Lemma captureGroups_needs fl k p c res :
  Rx.rmatch fl captureGroups k p c = Some res →
  paren_pair (snd p) ∨ arrow (snd p).
Proof.
  unfold captureGroups. rewrite !rmatch_alt.
  destruct (Rx.rmatch fl (class_constructor_pattern 1) k p c) eqn:E1.
  { intros _. left. eapply pattern_needs_pair; [| done]. auto. }
  destruct (Rx.rmatch fl instance_method_pattern k p c) eqn:E2.
  { intros _. left. eapply pattern_needs_pair; [| done]. auto. }
  destruct (Rx.rmatch fl single_arrow_pattern k p c) eqn:E3.
  { intros _. right. by eapply single_arrow_needs_arrow. }
  destruct (Rx.rmatch fl arrow_pattern k p c) eqn:E4.
  { intros _. left. eapply pattern_needs_pair; [| done]. auto. }
  intros H. left. eapply pattern_needs_pair; [| done]. auto.
Qed.

(** On a text with a parenthesis pair the instance-method pattern matches
    at the start. *)
Lemma instance_method_matches l :
  paren_pair l →
  is_Some (Rx.rmatch Rx.flags_ms instance_method_pattern Rx.accept
             (None, l) []).
Proof.
  intros (pre & mid & post & ->).
  unfold instance_method_pattern. cbn [Rx.seqs Rx.rmatch Rx.at_bol fst snd].
  apply lazy_dots_complete; [done |].
  cbn [Rx.rmatch snd]. rewrite Ascii.eqb_refl.
  cbn [Rx.rmatch fst snd].
  apply lazy_dots_complete; [done |].
  cbn [Rx.rmatch snd]. rewrite Ascii.eqb_refl. cbn [Rx.rmatch]. done.
Qed.

(** On a text with an arrow the single-parameter arrow pattern matches at
    the start. *)
Lemma single_arrow_matches l :
  arrow l →
  is_Some (Rx.rmatch Rx.flags_ms single_arrow_pattern Rx.accept
             (None, l) []).
Proof.
  intros (pre & post & ->).
  unfold single_arrow_pattern. cbn [Rx.seqs Rx.rmatch Rx.at_bol fst snd].
  match goal with |- is_Some (match ?o with _ => _ end) =>
    destruct o; [done |] end.
  apply lazy_dots_complete; [done |].
  cbn [Rx.rmatch Rx.lit Rx.lit_chars list_ascii_of_string snd].
  change (Ascii.eqb "=" " ") with false.
  change (Ascii.eqb "=" "=") with true.
  change (Ascii.eqb ">" ">") with true.
  cbn iota. done.
Qed.

Lemma captureGroups_matches_at_start l :
  paren_pair l ∨ arrow l →
  is_Some (Rx.rmatch Rx.flags_ms captureGroups Rx.accept (None, l) []).
Proof.
  intros H. unfold captureGroups. rewrite !rmatch_alt.
  destruct (Rx.rmatch _ (class_constructor_pattern 1) _ _ _); [done |].
  destruct (Rx.rmatch _ instance_method_pattern _ _ _) eqn:E2; [done |].
  destruct H as [H | H].
  { apply instance_method_matches in H. rewrite E2 in H. by destruct H. }
  apply single_arrow_matches in H.
  by destruct (Rx.rmatch _ single_arrow_pattern _ _ _).
Qed.

Lemma search_from_position fl r skipped prev rest m :
  Rx.search_from fl r skipped prev rest = Some m →
  ∃ prev' rest' res,
    rest' `suffix_of` rest
    ∧ Rx.rmatch fl r Rx.accept (prev', rest') [] = Some res.
Proof.
  revert skipped prev.
  induction rest as [| x rest IH]; intros skipped prev; simpl.
  - destruct (Rx.rmatch fl r Rx.accept (prev, []) []) eqn:E; [| done].
    intros _. by exists prev, [], p.
  - destruct (Rx.rmatch fl r Rx.accept (prev, x :: rest) []) eqn:E.
    + intros _. by exists prev, (x :: rest), p.
    + intros (prev' & rest' & res & Hs & H)%IH.
      exists prev', rest', res. split; [| done]. by apply suffix_cons_r.
Qed.

Lemma search_from_here fl r skipped prev rest p' c :
  Rx.rmatch fl r Rx.accept (prev, rest) [] = Some (p', c) →
  Rx.search_from fl r skipped prev rest
  = Some {| Rx.m_before := rev skipped;
            Rx.m_text := Rx.taken (prev, rest) p';
            Rx.m_after := p';
            Rx.m_caps := c |}.
Proof. intros H. destruct rest; simpl; by rewrite H. Qed.

Lemma search_from_captureGroups fl skipped prev rest m :
  Rx.search_from fl captureGroups skipped prev rest = Some m →
  paren_pair rest ∨ arrow rest.
Proof.
  intros (prev' & rest' & res & Hs & H)%search_from_position.
  apply captureGroups_needs in H as [H | H]; [left | right].
  - by eapply paren_pair_suffix.
  - by eapply arrow_suffix.
Qed.

Lemma captures_at_start l p' caps :
  Rx.rmatch Rx.flags_ms captureGroups Rx.accept (None, l) []
  = Some (p', caps) →
  Rx.capture caps 4 = None ∧ Rx.capture caps 5 = None.
Proof.
  unfold captureGroups. rewrite !rmatch_alt.
  assert (∀ r, 4 ∉ groups r → 5 ∉ groups r →
               Rx.rmatch Rx.flags_ms r Rx.accept (None, l) []
               = Some (p', caps) →
               Rx.capture caps 4 = None ∧ Rx.capture caps 5 = None)
    as Hfrom.
  { intros r H4 H5 (p1 & c1 & [= <- <-] & H)%rmatch_groups.
    split; by rewrite H. }
  assert (∀ a b : nat, a ≠ b → a ∉ [b]) as Hnot.
  { intros a b Hab Hin%list_elem_of_singleton. done. }
  destruct (Rx.rmatch _ (class_constructor_pattern 1) _ _ _) eqn:E1.
  { intros [= ->].
    eapply (Hfrom (class_constructor_pattern 1)); [| | done];
      apply Hnot; lia. }
  destruct (Rx.rmatch _ instance_method_pattern _ _ _) eqn:E2.
  { intros [= ->].
    eapply (Hfrom instance_method_pattern); [| | done]; apply Hnot; lia. }
  destruct (Rx.rmatch _ single_arrow_pattern _ _ _) eqn:E3.
  { intros [= ->].
    eapply (Hfrom single_arrow_pattern); [| | done]; apply Hnot; lia. }
  assert (paren_pair l → False) as Hpair.
  { intros H%instance_method_matches. rewrite E2 in H. by destruct H. }
  destruct (Rx.rmatch _ arrow_pattern _ _ _) eqn:E4.
  { intros _. exfalso. apply Hpair.
    eapply (pattern_needs_pair _ arrow_pattern) in E4; auto. }
  intros E5. exfalso. apply Hpair.
  eapply (pattern_needs_pair _ function_pattern) in E5; auto.
Qed.

(** X14. Whatever the text, a match of the five patterns starts at the very
    beginning of the text (the line starts that the [m] flag adds to [^]
    never come into play), and the two patterns for parenthesised arrow
    functions and for [function] declarations never supply the parameters:
    their groups, the fourth and the fifth, are always [undefined], because
    the pattern for instance methods matches every text they match. *)
Theorem extraction_matches_at_start_by_first_three_patterns (text : string)
    (m : Rx.Match) :
  Rx.exec Rx.flags_ms captureGroups text = Some m →
  Rx.m_before m = []
  ∧ Rx.capture (Rx.m_caps m) 4 = None
  ∧ Rx.capture (Rx.m_caps m) 5 = None.
Proof.
  unfold Rx.exec. set (l := list_ascii_of_string text). intros H.
  destruct (Rx.rmatch Rx.flags_ms captureGroups Rx.accept (None, l) [])
    as [[p' caps] |] eqn:E.
  - rewrite (search_from_here _ _ _ _ _ _ _ E) in H. injection H as <-.
    split; [done |]. by eapply captures_at_start.
  - exfalso. apply search_from_captureGroups in H.
    apply captureGroups_matches_at_start in H. rewrite E in H. by destruct H.
Qed.

Lemma extraction_matches_at_start_by_first_three_patterns_witness :
  ∃ m, Rx.exec Rx.flags_ms captureGroups "function (a, b) {}" = Some m
       ∧ Rx.m_before m = []
       ∧ Rx.capture (Rx.m_caps m) 4 = None
       ∧ Rx.capture (Rx.m_caps m) 5 = None.
Proof.
  eexists. split; [vm_compute; reflexivity |].
  apply (extraction_matches_at_start_by_first_three_patterns
           "function (a, b) {}").
  vm_compute. reflexivity.
Defined.

(** ** The names that [extractParameterNames] returns *)

Lemma accept_position fl r p c p' c' :
  Rx.rmatch fl r Rx.accept p c = Some (p', c') → snd p' `suffix_of` snd p.
Proof. by intros (p1 & c1 & Hs & [= <- <-])%rmatch_suffix. Qed.

(** The leftmost match: where it is, and that the pattern matches at no
    earlier position. *)
Lemma search_from_Some fl r skipped prev rest m :
  Rx.search_from fl r skipped prev rest = Some m →
  ∃ pre here,
    rest = pre ++ here
    ∧ Rx.m_before m = rev skipped ++ pre
    ∧ Rx.rmatch fl r Rx.accept (prev_after prev pre, here) []
      = Some (Rx.m_after m, Rx.m_caps m)
    ∧ Rx.m_text m = Rx.taken (prev_after prev pre, here) (Rx.m_after m)
    ∧ ∀ pre1 x post1,
        pre = pre1 ++ x :: post1 →
        Rx.rmatch fl r Rx.accept (prev_after prev pre1, x :: post1 ++ here) []
        = None.
Proof.
  revert skipped prev.
  induction rest as [| a rest IH]; intros skipped prev; simpl.
  - destruct (Rx.rmatch fl r Rx.accept (prev, []) []) as [[p' c] |] eqn:E;
      [| done].
    intros [= <-]. exists [], []. simpl. rewrite app_nil_r.
    repeat split; try done. by intros [| ? ?] ? ?.
  - destruct (Rx.rmatch fl r Rx.accept (prev, a :: rest) [])
      as [[p' c] |] eqn:E.
    + intros [= <-]. exists [], (a :: rest). simpl. rewrite app_nil_r.
      repeat split; try done. by intros [| ? ?] ? ?.
    + intros (pre & here & -> & Hb & Hm & Ht & Hs)%IH.
      exists (a :: pre), here. rewrite prev_after_cons.
      repeat split; try done.
      * rewrite Hb. simpl. by rewrite <- app_assoc.
      * intros [| b pre1] x post1 Hpre; simplify_eq/=; [done |].
        rewrite prev_after_cons. by apply Hs.
Qed.

Lemma search_from_None fl r skipped prev rest :
  Rx.search_from fl r skipped prev rest = None →
  ∀ pre here,
    rest = pre ++ here →
    Rx.rmatch fl r Rx.accept (prev_after prev pre, here) [] = None.
Proof.
  revert skipped prev.
  induction rest as [| a rest IH]; intros skipped prev; simpl.
  - destruct (Rx.rmatch fl r Rx.accept (prev, []) []) as [[p' c] |] eqn:E;
      [done |].
    intros _ [| ? ?] here ?; simplify_eq/=. done.
  - destruct (Rx.rmatch fl r Rx.accept (prev, a :: rest) [])
      as [[p' c] |] eqn:E; [done |].
    intros H [| b pre] here Hrest; simplify_eq/=; [done |].
    rewrite prev_after_cons. by eapply IH.
Qed.

(** Removing matches only removes characters. *)
Lemma remove_all_from_subset fuel fl r prev rest a :
  a ∈ Rx.remove_all_from fuel fl r prev rest → a ∈ rest.
Proof.
  revert prev rest. induction fuel as [| fuel IH]; intros prev rest; [done |].
  cbn [Rx.remove_all_from].
  destruct (Rx.search_from fl r [] prev rest) as [m |] eqn:E; [| done].
  apply search_from_Some in E as (pre & here & -> & Hb & Hm & _ & _).
  apply accept_position in Hm as [mid Hs]. simpl in Hb, Hs. rewrite Hb, Hs.
  destruct (Rx.m_text m) as [| t ts];
    [destruct (snd (Rx.m_after m)) as [| x rest'] |].
  - rewrite !elem_of_app. auto.
  - rewrite !elem_of_app, !elem_of_cons. intros [H | [H | H%IH]]; auto.
  - rewrite !elem_of_app. intros [H | H%IH]; auto.
Qed.

Lemma remove_all_subset fl r s a :
  a ∈ list_ascii_of_string (Rx.remove_all fl r s) →
  a ∈ list_ascii_of_string s.
Proof.
  unfold Rx.remove_all. rewrite list_ascii_of_string_of_list_ascii.
  apply remove_all_from_subset.
Qed.

Lemma remove_first_subset fl r s a :
  a ∈ list_ascii_of_string (Rx.remove_first fl r s) →
  a ∈ list_ascii_of_string s.
Proof.
  unfold Rx.remove_first, Rx.exec.
  destruct (Rx.search_from fl r [] None (list_ascii_of_string s))
    as [m |] eqn:E; [| done].
  apply search_from_Some in E as (pre & here & -> & Hb & Hm & _ & _).
  apply accept_position in Hm as [mid Hs]. simpl in Hb, Hs.
  rewrite list_ascii_of_string_of_list_ascii, Hb, Hs, !elem_of_app.
  intros [H | H]; auto.
Qed.

(** Removing every [\s] leaves no whitespace. *)
Lemma remove_spaces_from fuel fl prev rest a :
  length rest < fuel →
  a ∈ Rx.remove_all_from fuel fl Rx.RSpace prev rest →
  Rx.is_space a = false.
Proof.
  revert prev rest.
  induction fuel as [| fuel IH]; intros prev rest Hlen; [lia |].
  cbn [Rx.remove_all_from].
  destruct (Rx.search_from fl Rx.RSpace [] prev rest) as [m |] eqn:E.
  - apply search_from_Some in E as (pre & here & -> & Hb & Hm & Ht & Hs).
    simpl in Hb, Hm. destruct here as [| x post]; [done |].
    destruct (Rx.is_space x) eqn:Hx; [| done].
    injection Hm as Hafter Hcaps. rewrite <- Hafter in Ht.
    unfold Rx.taken in Ht. simpl snd in Ht.
    replace (length (x :: post) - length post) with 1 in Ht
      by (simpl; lia).
    simpl in Ht. rewrite Ht, Hb, <- Hafter. simpl snd.
    rewrite elem_of_app. intros [H | H].
    + apply list_elem_of_split in H as (pre1 & post1 & ->).
      specialize (Hs pre1 a post1 eq_refl). simpl in Hs.
      by destruct (Rx.is_space a).
    + eapply IH; [| done]. rewrite length_app in Hlen. simpl in Hlen. lia.
  - intros (pre1 & post1 & ->)%list_elem_of_split.
    pose proof (search_from_None _ _ _ _ _ E pre1 (a :: post1) eq_refl) as H.
    simpl in H. by destruct (Rx.is_space a).
Qed.

(** [.*?] reaches the end of the input when every character on the way is
    one that the dot matches. *)
Lemma lazy_dots_reaches_end fl k prev rest c :
  (∀ a, a ∈ rest → Rx.dot_matches fl a = true) →
  (∀ prev', is_Some (k (prev', []) c)) →
  is_Some (Rx.lazy_dots fl k prev rest c).
Proof.
  intros Hdot Hend. revert prev Hdot.
  induction rest as [| a rest IH]; intros prev Hdot; simpl.
  - destruct (Hend prev) as [res ->]. done.
  - destruct (k (prev, a :: rest) c); [done |].
    rewrite Hdot by (apply elem_of_cons; auto).
    apply IH. intros x Hx. apply Hdot, elem_of_cons. auto.
Qed.

Lemma default_value_needs fl prev here p' c :
  Rx.rmatch fl default_value Rx.accept (prev, here) [] = Some (p', c) →
  ∃ post, here = "="%char :: post ∧ snd p' `suffix_of` post.
Proof.
  unfold default_value. cbn [Rx.seqs Rx.rmatch snd fst].
  destruct here as [| x post]; [done |].
  destruct (Ascii.eqb x "=") eqn:Hx; [| done].
  apply Ascii.eqb_eq in Hx as ->.
  intros (p1 & c1 & Hs & H)%lazy_dots_suffix.
  exists post. split; [done |].
  destruct (match snd p1 with [] => _ | _ => _ end) in H;
    [| destruct (if Rx.at_eol fl p1 then _ else _) in H]; try done;
    by injection H as <- <-.
Qed.

Lemma default_value_matches prev post :
  (∀ a, a ∈ post → Rx.is_line_terminator a = false) →
  is_Some (Rx.rmatch Rx.flags_none default_value Rx.accept
             (prev, "="%char :: post) []).
Proof.
  intros Hlt. unfold default_value. cbn [Rx.seqs Rx.rmatch snd fst].
  change (Ascii.eqb "=" "=") with true. cbn iota.
  apply lazy_dots_reaches_end.
  - intros a Ha. unfold Rx.dot_matches. by rewrite (Hlt a Ha).
  - intros prev'. by cbn.
Qed.

(** Removing every default value leaves no equals sign, on a text with no
    line terminator. *)
Lemma remove_defaults_from fuel prev rest a :
  length rest < fuel →
  (∀ x, x ∈ rest → Rx.is_line_terminator x = false) →
  a ∈ Rx.remove_all_from fuel Rx.flags_none default_value prev rest →
  a ≠ "="%char.
Proof.
  revert prev rest.
  induction fuel as [| fuel IH]; intros prev rest Hlen Hlt; [lia |].
  cbn [Rx.remove_all_from].
  destruct (Rx.search_from Rx.flags_none default_value [] prev rest)
    as [m |] eqn:E.
  - apply search_from_Some in E as (pre & here & -> & Hb & Hm & Ht & Hs).
    simpl in Hb.
    apply default_value_needs in Hm as (post & -> & [mid Hpost]).
    unfold Rx.taken in Ht. simpl snd in Ht.
    assert (∃ n, length ("="%char :: post) - length (snd (Rx.m_after m))
                 = S n) as [n Hn].
    { exists (length mid). rewrite Hpost. simpl. rewrite length_app. lia. }
    rewrite Hn in Ht. simpl in Ht. rewrite Ht, Hb.
    rewrite elem_of_app. intros [H | H] ->.
    + apply list_elem_of_split in H as (pre1 & post1 & ->).
      specialize (Hs pre1 _ post1 eq_refl).
      destruct (default_value_matches (prev_after prev pre1)
                  (post1 ++ "="%char :: post)) as [res Hres].
      * intros x Hx. apply Hlt. rewrite <- app_assoc.
        apply elem_of_app. right. by apply elem_of_cons; right.
      * by rewrite Hres in Hs.
    + eapply IH in H; [done | |].
      * rewrite length_app in Hlen. simpl in Hlen.
        rewrite Hpost, length_app in Hlen. lia.
      * intros x Hx. apply Hlt. apply elem_of_app. right.
        apply elem_of_cons. right. rewrite Hpost. apply elem_of_app. auto.
  - intros (pre1 & post1 & Hrest)%list_elem_of_split ->.
    pose proof (search_from_None _ _ _ _ _ E pre1 _ Hrest) as H.
    destruct (default_value_matches (prev_after prev pre1) post1)
      as [res Hres].
    + intros x Hx. apply Hlt. rewrite Hrest. apply elem_of_app. right.
      by apply elem_of_cons; right.
    + by rewrite Hres in H.
Qed.

Lemma elem_of_rev (a : ascii) l : a ∈ rev l ↔ a ∈ l.
Proof. rewrite !list_elem_of_In. symmetry. apply in_rev. Qed.

(** The pieces of [split(",")] are made of the characters of the text other
    than the comma. *)
Lemma split_comma_from_pieces cur l name a :
  (∀ x, x ∈ cur → x ≠ ","%char) →
  name ∈ Rx.split_comma_from cur l →
  a ∈ list_ascii_of_string name →
  (a ∈ cur ∨ a ∈ l) ∧ a ≠ ","%char.
Proof.
  revert cur. induction l as [| x l IH]; intros cur Hcur; simpl.
  - intros ->%list_elem_of_singleton.
    rewrite list_ascii_of_string_of_list_ascii, elem_of_rev.
    intros Ha. split; [by left | by apply Hcur].
  - destruct (Ascii.eqb x ",") eqn:Hx.
    + intros [-> | Hin]%elem_of_cons.
      * rewrite list_ascii_of_string_of_list_ascii, elem_of_rev.
        intros Ha. split; [by left | by apply Hcur].
      * intros Ha. destruct (IH [] ltac:(by intros ? ?%elem_of_nil) Hin Ha)
          as [[H | H] Hne]; [by apply elem_of_nil in H |].
        split; [| done]. right. by apply elem_of_cons; right.
    + apply Ascii.eqb_neq in Hx. intros Hin Ha.
      destruct (IH (x :: cur)) as [[H | H] Hne]; try done.
      * intros y [-> | Hy]%elem_of_cons; [done | by apply Hcur].
      * apply elem_of_cons in H as [-> | H]; split; try done;
          [right; by apply elem_of_cons; left | by left].
      * split; [| done]. right. by apply elem_of_cons; right.
Qed.

Lemma line_terminator_is_space a :
  Rx.is_space a = false → Rx.is_line_terminator a = false.
Proof.
  unfold Rx.is_space, Rx.is_line_terminator.
  destruct (Nat.eqb (Rx.code a) 10), (Nat.eqb (Rx.code a) 13);
    rewrite ?orb_true_r; simpl; try done.
Qed.

(** X15. No name that [extractParameterNames] returns contains a whitespace
    character, a comma or an equals sign, whatever the text of the function
    is: the whitespace is removed, what follows removes characters only,
    every default value goes from its equals sign on, and the commas are
    where the text is split. *)
Theorem extracted_names_have_no_space_comma_or_equals
    (text name : string) (a : ascii) :
  name ∈ extractParameterNames text →
  a ∈ list_ascii_of_string name →
  Rx.is_space a = false ∧ a ≠ ","%char ∧ a ≠ "="%char.
Proof.
  unfold extractParameterNames.
  destruct (Rx.exec Rx.flags_ms captureGroups text) as [m |];
    [| by intros ?%elem_of_nil].
  set (s2 := Rx.remove_all Rx.flags_m block_comment _).
  set (s3 := Rx.remove_all Rx.flags_m Rx.RSpace s2).
  set (s4 := Rx.remove_first Rx.flags_none enclosing_parenthesis s3).
  assert (∀ x, x ∈ list_ascii_of_string s4 → Rx.is_space x = false) as H4.
  { intros x Hx%remove_first_subset. unfold s3, Rx.remove_all in Hx.
    rewrite list_ascii_of_string_of_list_ascii in Hx.
    eapply remove_spaces_from; [| done]. lia. }
  intros Hname Ha. unfold Rx.split_comma in Hname.
  destruct (split_comma_from_pieces _ _ _ _
              ltac:(by intros ? ?%elem_of_nil) Hname Ha) as [[H | H] Hne];
    [by apply elem_of_nil in H |].
  split; [| split; [done |]].
  - by apply remove_all_subset, H4 in H.
  - unfold Rx.remove_all in H.
    rewrite list_ascii_of_string_of_list_ascii in H.
    eapply remove_defaults_from; [| | done]; [lia |].
    intros x Hx. by apply line_terminator_is_space, H4.
Qed.

Lemma extracted_names_have_no_space_comma_or_equals_witness :
  Rx.is_space "b" = false ∧ "b"%char ≠ ","%char ∧ "b"%char ≠ "="%char.
Proof.
  apply (extracted_names_have_no_space_comma_or_equals
           "function (a, b = 1) {}" "b" "b"%char).
  - assert (extractParameterNames "function (a, b = 1) {}" = ["a"; "b"])
      as -> by (vm_compute; reflexivity).
    apply list_elem_of_further, list_elem_of_here.
  - apply list_elem_of_here.
Defined.

Lemma split_comma_from_not_empty cur l : Rx.split_comma_from cur l ≠ [].
Proof.
  revert cur. induction l as [| x l IH]; intros cur; simpl; [done |].
  destruct (Ascii.eqb x ","); [done | apply IH].
Qed.

(** X16. [extractParameterNames] returns the empty list for exactly the
    texts that hold neither an opening parenthesis with a closing one
    somewhere after it, nor an arrow [=>]; for every other text it returns
    at least one name (for a function with no parameter, the empty
    name). *)
Theorem no_names_iff_no_parenthesis_pair_and_no_arrow (text : string) :
  extractParameterNames text = []
  ↔ ¬ paren_pair (list_ascii_of_string text)
    ∧ ¬ arrow (list_ascii_of_string text).
Proof.
  unfold extractParameterNames, Rx.exec.
  destruct (Rx.search_from Rx.flags_ms captureGroups [] None
              (list_ascii_of_string text)) as [m |] eqn:E.
  - split.
    + intros H. by apply split_comma_from_not_empty in H.
    + intros [Hp Ha]. apply search_from_captureGroups in E as [H | H]; done.
  - split; [| done]. intros _.
    pose proof (search_from_None _ _ _ _ _ E [] _ eq_refl) as Hnone.
    change (prev_after None []) with (@None ascii) in Hnone.
    split; intros H.
    + assert (paren_pair (list_ascii_of_string text)
              ∨ arrow (list_ascii_of_string text)) as Hor by (by left).
      apply captureGroups_matches_at_start in Hor. rewrite Hnone in Hor.
      by destruct Hor.
    + assert (paren_pair (list_ascii_of_string text)
              ∨ arrow (list_ascii_of_string text)) as Hor by (by right).
      apply captureGroups_matches_at_start in Hor. rewrite Hnone in Hor.
      by destruct Hor.
Qed.
